(** * The IMU/pose extended Kalman filter of [src/imu/ekf.cpp]

    A shallow embedding of [vllm::EKF] (state propagation from inertial
    samples, correction from absolute poses) and of the parts of Eigen it
    calls, followed by the properties of the filter.

    Conventions of the embedding.
    - [float] is read as a real number: arithmetic is exact, rounding and
      overflow are not modelled.  The two operations that turn finite
      floats into non-finite ones, a division by zero and the square root
      of a negative number, are tracked: they yield [None], and every
      function that may perform one returns an [option].
    - [unsigned long] is 64 bits wide: timestamps are integers in
      [0, 2^64) and their difference wraps around.
    - Dense Eigen matrices and dynamic vectors are index functions; the
      inner dimension of a product is given where the product is taken.
      [Vector3f] and [Quaternionf] are records.
    - The methods of [EKF] take the object as an argument and return the
      new object.  Writes to [std::cout] are left out.
    - Eigen is modelled as of its 3.3 series.  What is declared in
      [imu/ekf.hpp] and [core/util.hpp] but defined outside this
      translation unit ([isUpadatable], [getScale], [normalizeRotation])
      and Eigen's LU-based [inverse] are parameters of the development:
      nothing is assumed about them.
    - [observe] computes with the matrix that [inverse] returns.  That
      matrix is finite only when the innovation covariance has an inverse
      (on a singular one the LU solve divides by a zero pivot);
      [observe_checked] and [run_checked] track this case as [None], as
      they do every other division by zero. *)

From Stdlib Require Import Reals Psatz ZArith Lia List Bool FunctionalExtensionality.
From Stdlib Require Import Classical ClassicalDedekindReals.
Import ListNotations.

Local Open Scope R_scope.

(** ** Scalars *)

(** [a / b] on floats: a zero divisor gives an infinity or a NaN. *)
Definition fdiv (a b : R) : option R :=
  if Req_dec_T b 0 then None else Some (a / b).

(** [std::sqrt]: a negative argument gives a NaN. *)
Definition fsqrt (a : R) : option R :=
  if Rlt_dec a 0 then None else Some (sqrt a).

Definition bind {A B : Type} (m : option A) (f : A -> option B) : option B :=
  match m with
  | Some a => f a
  | None => None
  end.

Notation "x <- m ;; k" := (bind m (fun x => k))
  (at level 61, m at next level, right associativity).

(** [A @( i , j )] is the coefficient [A(i, j)] of a matrix. *)
Notation "A '@(' i ',' j ')'" := (A i%nat j%nat)
  (at level 1, only parsing).

(** Subtraction of two [unsigned long] values. *)
Definition u64_sub (a b : Z) : Z := ((a - b) mod 2 ^ 64)%Z.

(** [static_cast<float>] of an [unsigned long]. *)
Definition float_of_u64 (n : Z) : R := IZR n.

(** ** Eigen *)

Module MatrixXf.

Definition t : Type := nat -> nat -> R.

Definition Identity : t := fun i j => if Nat.eqb i j then 1 else 0.

Definition Zero : t := fun _ _ => 0.

(** [sum n f] is [f 0 + ... + f (n-1)]. *)
Fixpoint sum (n : nat) (f : nat -> R) : R :=
  match n with
  | O => 0
  | S k => sum k f + f k
  end.

(** [A * B], where [A] has [n] columns and [B] has [n] rows. *)
Definition mul (n : nat) (A B : t) : t :=
  fun i j => sum n (fun k => A i k * B k j).

Definition transpose (A : t) : t := fun i j => A j i.

Definition add (A B : t) : t := fun i j => A i j + B i j.

Definition sub (A B : t) : t := fun i j => A i j - B i j.

Definition opp (A : t) : t := fun i j => - A i j.

(** [A * s] *)
Definition mul_scalar (A : t) (s : R) : t := fun i j => A i j * s.

(** [s * A] *)
Definition scalar_mul (s : R) (A : t) : t := fun i j => s * A i j.

(** [A.block(r, c, h, w) = B] *)
Definition setBlock (A : t) (r c h w : nat) (B : t) : t :=
  fun i j =>
    if (r <=? i)%nat && (i <? r + h)%nat && (c <=? j)%nat && (j <? c + w)%nat
    then B (i - r)%nat (j - c)%nat
    else A i j.

(** [A.block(r, c, _, _)] read as a matrix of its own. *)
Definition block (A : t) (r c : nat) : t := fun i j => A (r + i)%nat (c + j)%nat.

(** The comma initializer [A << a, b, ..., c;], row by row. *)
Definition of_rows (rows : list (list R)) : t :=
  fun i j => nth j (nth i rows []) 0.

(** Equality of the [n] x [m] matrices held by two index functions. *)
Definition eq_on (n m : nat) (A B : t) : Prop :=
  forall i j, (i < n)%nat -> (j < m)%nat -> A i j = B i j.

End MatrixXf.

Module Vector3f.

Record t : Type := mk { x : R; y : R; z : R }.

(** [v(i)] *)
Definition coeff (v : t) (i : nat) : R :=
  match i with
  | 0%nat => x v
  | 1%nat => y v
  | _ => z v
  end.

(** The vector as a 3x1 matrix. *)
Definition as_matrix (v : t) : MatrixXf.t := fun i _ => coeff v i.

Definition add (a b : t) : t := mk (x a + x b) (y a + y b) (z a + z b).

Definition sub (a b : t) : t := mk (x a - x b) (y a - y b) (z a - z b).

(** [v * s] *)
Definition mul_scalar (v : t) (s : R) : t := mk (x v * s) (y v * s) (z v * s).

(** [s * v] *)
Definition scalar_mul (s : R) (v : t) : t := mk (s * x v) (s * y v) (s * z v).

(** [v / d], coefficient by coefficient. *)
Definition div_scalar (v : t) (d : R) : option t :=
  a <- fdiv (x v) d ;;
  b <- fdiv (y v) d ;;
  c <- fdiv (z v) d ;;
  Some (mk a b c).

Definition squaredNorm (v : t) : R := x v * x v + y v * y v + z v * z v.

Definition norm (v : t) : option R := fsqrt (squaredNorm v).

(** [MatrixBase::normalized()]: a vector whose squared norm is not
    positive is returned as it is. *)
Definition normalized (v : t) : option t :=
  let n2 := squaredNorm v in
  if Rlt_dec 0 n2 then (n <- fsqrt n2 ;; div_scalar v n) else Some v.

(** [M * v] for a 3x3 matrix [M]. *)
Definition of_mul (M : MatrixXf.t) (v : t) : t :=
  mk (M@(0, 0) * x v + M@(0, 1) * y v + M@(0, 2) * z v)
     (M@(1, 0) * x v + M@(1, 1) * y v + M@(1, 2) * z v)
     (M@(2, 0) * x v + M@(2, 1) * y v + M@(2, 2) * z v).

(** A 3x1 block of a matrix, e.g. [T.topRightCorner(3, 1)]. *)
Definition of_column (M : MatrixXf.t) (r c : nat) : t :=
  mk M@(r, c) M@(r + 1, c) M@(r + 2, c).

(** Three consecutive rows of a dynamic vector, from row [r] on. *)
Definition of_rows (v : nat -> R) (r : nat) : t :=
  mk (v r) (v (r + 1)%nat) (v (r + 2)%nat).

End Vector3f.

Module Quaternionf.

(** The constructor takes the coefficients in the order [w, x, y, z]. *)
Record t : Type := mk { w : R; x : R; y : R; z : R }.

(** [q.coeffs().coeffRef(i) = v]: the coefficients are stored as
    [x, y, z, w]. *)
Definition setCoeff (q : t) (i : nat) (v : R) : t :=
  match i with
  | 0%nat => mk (w q) v (y q) (z q)
  | 1%nat => mk (w q) (x q) v (z q)
  | 2%nat => mk (w q) (x q) (y q) v
  | _ => mk v (x q) (y q) (z q)
  end.

Definition setW (q : t) (v : R) : t := mk v (x q) (y q) (z q).

Definition squaredNorm (q : t) : R :=
  x q * x q + y q * y q + z q * z q + w q * w q.

Definition norm (q : t) : option R := fsqrt (squaredNorm q).

(** [QuaternionBase::normalized()], that is
    [Quaternion(coeffs().normalized())]. *)
Definition normalized (q : t) : option t :=
  let n2 := squaredNorm q in
  if Rlt_dec 0 n2 then
    n <- fsqrt n2 ;;
    a <- fdiv (x q) n ;;
    b <- fdiv (y q) n ;;
    c <- fdiv (z q) n ;;
    d <- fdiv (w q) n ;;
    Some (mk d a b c)
  else Some q.

(** [a * b], the Hamilton product. *)
Definition mul (a b : t) : t :=
  mk (w a * w b - x a * x b - y a * y b - z a * z b)
     (w a * x b + x a * w b + y a * z b - z a * y b)
     (w a * y b + y a * w b + z a * x b - x a * z b)
     (w a * z b + z a * w b + x a * y b - y a * x b).

(** [QuaternionBase::toRotationMatrix()]. *)
Definition toRotationMatrix (q : t) : MatrixXf.t :=
  let tx := 2 * x q in
  let ty := 2 * y q in
  let tz := 2 * z q in
  let twx := tx * w q in
  let twy := ty * w q in
  let twz := tz * w q in
  let txx := tx * x q in
  let txy := ty * x q in
  let txz := tz * x q in
  let tyy := ty * y q in
  let tyz := tz * y q in
  let tzz := tz * z q in
  fun i j =>
    match i, j with
    | 0%nat, 0%nat => 1 - (tyy + tzz)
    | 0%nat, 1%nat => txy - twz
    | 0%nat, 2%nat => txz + twy
    | 1%nat, 0%nat => txy + twz
    | 1%nat, 1%nat => 1 - (txx + tzz)
    | 1%nat, 2%nat => tyz - twx
    | 2%nat, 0%nat => txz - twy
    | 2%nat, 1%nat => tyz + twx
    | 2%nat, 2%nat => 1 - (txx + tyy)
    | _, _ => 0
    end.

(** [Quaternionf(mat)] for a 3x3 matrix: the conversion of
    [quaternionbase_assign_impl<Other, 3, 3>] (Shoemake's algorithm).  The
    four coefficients of the result are all assigned, whichever branch
    runs. *)
Definition fromRotationMatrix (mat : MatrixXf.t) : option t :=
  let q := mk 0 0 0 0 in
  let tr := mat@(0, 0) + mat@(1, 1) + mat@(2, 2) in
  if Rlt_dec 0 tr then
    t1 <- fsqrt (tr + 1) ;;
    let q := setW q (0.5 * t1) in
    t2 <- fdiv 0.5 t1 ;;
    Some (mk (w q)
             ((mat@(2, 1) - mat@(1, 2)) * t2)
             ((mat@(0, 2) - mat@(2, 0)) * t2)
             ((mat@(1, 0) - mat@(0, 1)) * t2))
  else
    let i := 0%nat in
    let i := if Rlt_dec mat@(0, 0) mat@(1, 1) then 1%nat else i in
    let i := if Rlt_dec mat@(i, i) mat@(2, 2) then 2%nat else i in
    let j := ((i + 1) mod 3)%nat in
    let k := ((j + 1) mod 3)%nat in
    t1 <- fsqrt (mat@(i, i) - mat@(j, j) - mat@(k, k) + 1) ;;
    let q := setCoeff q i (0.5 * t1) in
    t2 <- fdiv 0.5 t1 ;;
    let q := setW q ((mat@(k, j) - mat@(j, k)) * t2) in
    let q := setCoeff q j ((mat@(j, i) + mat@(i, j)) * t2) in
    let q := setCoeff q k ((mat@(k, i) + mat@(i, k)) * t2) in
    Some q.

End Quaternionf.

Module VectorXf.

Definition t : Type := nat -> R.

Definition sub (a b : t) : t := fun i => a i - b i.

(** [A * v], where [A] has [n] columns and [v] has [n] rows. *)
Definition of_mul (n : nat) (A : MatrixXf.t) (v : t) : t :=
  fun i => MatrixXf.sum n (fun k => A i k * v k).

End VectorXf.

(** ** The filter *)

Module vllm.

(** Modelled from the spec: the class [EKF] is declared in [imu/ekf.hpp],
    which is not among the sources.  Its data members are the ones
    [ekf.cpp] reads or writes, with the types of the specification's data
    model: position, velocity, orientation, scale, the 9x9 covariance, the
    timestamp of the last sample, and the constants [gravity], [LQL]
    (9x9) and [W] (7x7), which are set at construction and never written
    here. *)
Record EKF : Type := mkEKF {
  pos : Vector3f.t;
  vel : Vector3f.t;
  qua : Quaternionf.t;
  scale : R;
  P : MatrixXf.t;
  last_ns : Z;
  gravity : Vector3f.t;
  LQL : MatrixXf.t;
  W : MatrixXf.t
}.

Definition set_last_ns (s : EKF) (ns : Z) : EKF :=
  mkEKF (pos s) (vel s) (qua s) (scale s) (P s) ns (gravity s) (LQL s) (W s).

(** The calls a client can make on the filter. *)
Inductive Call : Type :=
| CallInit (T : MatrixXf.t) (v : Vector3f.t)
| CallPredict (acc omega : Vector3f.t) (ns : Z)
| CallObserve (T : MatrixXf.t) (ns : Z).

(** [Eigen::Matrix4f EKF::getState()]; the object is returned next to the
    result. *)
Definition getState (s : EKF) : MatrixXf.t * EKF :=
  let T := MatrixXf.Identity in
  let T := MatrixXf.setBlock T 0 0 3 3
             (MatrixXf.scalar_mul (scale s) (Quaternionf.toRotationMatrix (qua s))) in
  let T := MatrixXf.setBlock T 0 3 3 1 (Vector3f.as_matrix (pos s)) in
  (T, s).

(** [Eigen::Quaternionf EKF::exp(const Eigen::Vector3f& v)] *)
Definition exp (v : Vector3f.t) : option Quaternionf.t :=
  norm <- Vector3f.norm v ;;
  let c := cos (norm / 2) in
  let s := sin (norm / 2) in
  vn <- Vector3f.normalized v ;;
  let n := Vector3f.scalar_mul s vn in
  Some (Quaternionf.mk c (Vector3f.x n) (Vector3f.y n) (Vector3f.z n)).

(** [void EKF::init(const Eigen::Matrix4f& T, const Eigen::Vector3f& v)] *)
Definition init (s : EKF) (T : MatrixXf.t) (v : Vector3f.t) : option EKF :=
  let Rm := MatrixXf.block T 0 0 in
  let pos' := Vector3f.of_column T 0 3 in
  q <- Quaternionf.fromRotationMatrix Rm ;;
  qua' <- Quaternionf.normalized q ;;
  let vel' := v in
  let P' := MatrixXf.scalar_mul 0.5 MatrixXf.Identity in
  Some (mkEKF pos' vel' qua' (scale s) P' (last_ns s) (gravity s) (LQL s) (W s)).

(** [Eigen::Matrix3f EKF::hat(const Eigen::Vector3f& vec)] *)
Definition hat (vec : Vector3f.t) : MatrixXf.t :=
  let v := Vector3f.coeff vec in
  MatrixXf.of_rows
    [ [ 0; - v 2%nat; v 1%nat ];
      [ v 2%nat; 0; - v 0%nat ];
      [ - v 1%nat; v 0%nat; 0 ] ].

(** [Eigen::MatrixXf EKF::calcF(q, acc, dt)] *)
Definition calcF (q : Quaternionf.t) (acc : Vector3f.t) (dt : R) : MatrixXf.t :=
  let F := MatrixXf.Identity in
  let F := MatrixXf.setBlock F 0 3 3 3 (MatrixXf.mul_scalar MatrixXf.Identity dt) in
  let F := MatrixXf.setBlock F 3 6 3 3
             (MatrixXf.mul_scalar
                (MatrixXf.opp (hat (Vector3f.of_mul (Quaternionf.toRotationMatrix q) acc)))
                dt) in
  F.

(** [Eigen::MatrixXf EKF::calcH(const Eigen::Quaternionf& q)] *)
Definition calcH (q : Quaternionf.t) : MatrixXf.t :=
  let qw := Quaternionf.w q in
  let qx := Quaternionf.x q in
  let qy := Quaternionf.y q in
  let qz := Quaternionf.z q in
  let Q := MatrixXf.of_rows
             [ [ - qx; - qy; - qz ];
               [ qw; - qz; qy ];
               [ qz; qw; - qx ];
               [ - qy; qx; qw ] ] in
  let Q := MatrixXf.mul_scalar Q 0.5 in
  let H := MatrixXf.Zero in
  let H := MatrixXf.setBlock H 0 0 3 3 MatrixXf.Identity in
  let H := MatrixXf.setBlock H 3 6 4 3 Q in
  H.

(** [Eigen::VectorXf EKF::toVec(p, q)] *)
Definition toVec (p : Vector3f.t) (q : Quaternionf.t) : VectorXf.t :=
  fun i =>
    match i with
    | 0%nat => Vector3f.x p
    | 1%nat => Vector3f.y p
    | 2%nat => Vector3f.z p
    | 3%nat => Quaternionf.w q
    | 4%nat => Quaternionf.x q
    | 5%nat => Quaternionf.y q
    | 6%nat => Quaternionf.z q
    | _ => 0
    end.

(** The local [dt] of [predict]:
    [static_cast<float>(ns - last_ns) * 1e-9f]. *)
Definition dt_of (ns last : Z) : R := float_of_u64 (u64_sub ns last) * 1e-9.

(** *** Reference definitions

    These follow the wording of the specification; the theorems below
    compare them with what the code computes. *)

(** The exponential map of the specification: [(cos(h), sin(h) * v / |v|)]
    with [h = |v| / 2], and the identity quaternion when [|v| = 0]. *)
Definition exp_spec (v : Vector3f.t) : Quaternionf.t :=
  let n := sqrt (Vector3f.squaredNorm v) in
  if Req_dec_T n 0 then Quaternionf.mk 1 0 0 0
  else Quaternionf.mk (cos (n / 2))
         (sin (n / 2) * (Vector3f.x v / n))
         (sin (n / 2) * (Vector3f.y v / n))
         (sin (n / 2) * (Vector3f.z v / n)).

(** The cross product [a x b]. *)
Definition cross (a b : Vector3f.t) : Vector3f.t :=
  Vector3f.mk
    (Vector3f.y a * Vector3f.z b - Vector3f.z a * Vector3f.y b)
    (Vector3f.z a * Vector3f.x b - Vector3f.x a * Vector3f.z b)
    (Vector3f.x a * Vector3f.y b - Vector3f.y a * Vector3f.x b).

(** The unit vector along axis [c]. *)
Definition unit (c : nat) : Vector3f.t :=
  Vector3f.mk (if Nat.eqb c 0 then 1 else 0)
              (if Nat.eqb c 1 then 1 else 0)
              (if Nat.eqb c 2 then 1 else 0).

(** The state-transition Jacobian of the specification for a rotation
    matrix [Rm]: the identity, but for the block [I * dt] at rows 0-2 and
    columns 3-5 and the block [- hat(Rm * acc) * dt] at rows 3-5 and
    columns 6-8, where column [c] of [hat(a)] is [a x e_c]. *)
Definition F_spec (Rm : MatrixXf.t) (acc : Vector3f.t) (dt : R) : MatrixXf.t :=
  fun i j =>
    if (i <? 3)%nat && (3 <=? j)%nat && (j <? 6)%nat then
      (if Nat.eqb i (j - 3) then dt else 0)
    else if (3 <=? i)%nat && (i <? 6)%nat && (6 <=? j)%nat && (j <? 9)%nat then
      - Vector3f.coeff (cross (Vector3f.of_mul Rm acc) (unit (j - 6))) (i - 3) * dt
    else if Nat.eqb i j then 1 else 0.

(** The 7x9 observation Jacobian of the specification: the identity in
    the top-left 3x3 block, half of [Xi(q)] in the bottom-right 4x3 block,
    zero elsewhere. *)
Definition H_spec (q : Quaternionf.t) : MatrixXf.t :=
  let qw := Quaternionf.w q in
  let qx := Quaternionf.x q in
  let qy := Quaternionf.y q in
  let qz := Quaternionf.z q in
  fun i j =>
    match i, j with
    | 0%nat, 0%nat | 1%nat, 1%nat | 2%nat, 2%nat => 1
    | 3%nat, 6%nat => / 2 * - qx
    | 3%nat, 7%nat => / 2 * - qy
    | 3%nat, 8%nat => / 2 * - qz
    | 4%nat, 6%nat => / 2 * qw
    | 4%nat, 7%nat => / 2 * - qz
    | 4%nat, 8%nat => / 2 * qy
    | 5%nat, 6%nat => / 2 * qz
    | 5%nat, 7%nat => / 2 * qw
    | 5%nat, 8%nat => / 2 * - qx
    | 6%nat, 6%nat => / 2 * - qy
    | 6%nat, 7%nat => / 2 * qx
    | 6%nat, 8%nat => / 2 * qw
    | _, _ => 0
    end.


(** ** Correspondence estimation

    [CorrespondenceEstimationBackProjection<PointXYZ, PointXYZ, Normal>] of
    [src/pcl_/correspondence_estimator.cpp], the one instantiation of the
    template.  A point cloud is the function from an index to the point
    (or normal) stored there; access outside the cloud is undefined in the
    source and not modelled.  The k-d tree is the function from a query
    point and a number of neighbours to the neighbours found, each the
    index of a target point with its squared distance (the two vectors
    [nn_indices] and [nn_dists], which the search resizes to one length).
    [CorrespondenceEstimationBase::initCompute] and the members declared
    in the header are fields of the object. *)

Module pcl_.

(** [pcl::Correspondence] *)
Record Correspondence : Type := mkCorrespondence {
  index_query : Z;
  index_match : Z;
  distance : R
}.

(** The members of the class that the two methods use; the class itself
    is declared in [vllm/pcl_/correspondence_estimator.hpp] and in PCL. *)
Record CorrespondenceEstimationBackProjection : Type := mkEstimation {
  input_ : Z -> Vector3f.t;
  indices_ : list Z;
  source_normals_ : option (Z -> Vector3f.t);
  target_normals_ : option (Z -> Vector3f.t);
  center_ : Vector3f.t;
  k_ : Z;
  nearestKSearch : Vector3f.t -> Z -> list (Z * R);
  base_initCompute : bool
}.

(** [std::numeric_limits<float>::max()] *)
Definition FLT_MAX : R := 340282346638528859811704183484516925440.

Definition gain_center : list R := [ - 0.2; 0.0; 0.2 ].

Definition gain_K : list Z := [ 1; 2; 3 ]%Z.

(** [bool initCompute()] *)
Definition initCompute (e : CorrespondenceEstimationBackProjection) : bool :=
  match source_normals_ e, target_normals_ e with
  | Some _, Some _ => base_initCompute e
  | _, _ => false
  end.

(** The locals [cos_angle] and [dist] of the innermost loop. *)
Definition cos_angle (s t : Vector3f.t) : R :=
  Vector3f.x s * Vector3f.x t + Vector3f.y s * Vector3f.y t
  + Vector3f.z s * Vector3f.z t.

Definition dist (nn_dist cosa : R) : R := nn_dist * (2 - cosa * cosa).

(** [(min_dist, min_index, min_output_dist)] *)
Definition Best : Type := (R * Z * R)%type.

(** The body of the loop over [j], on the neighbour [c]. *)
Definition keep_better (sn : Vector3f.t) (tn : Z -> Vector3f.t)
    (b : Best) (c : Z * R) : Best :=
  let d := dist (snd c) (cos_angle sn (tn (fst c))) in
  if Rlt_dec d (fst (fst b)) then (d, fst c, snd c) else b.

(** The loop over [j]: the best of the neighbours of one search. *)
Definition best_neighbour (sn : Vector3f.t) (tn : Z -> Vector3f.t)
    (nn : list (Z * R)) : Best :=
  fold_left (keep_better sn tn) nn (FLT_MAX, 0%Z, 0).

(** The query point of search [k] and its neighbours. *)
Definition neighbours (e : CorrespondenceEstimationBackProjection)
    (idx : Z) (distance_from_center : Vector3f.t) (k : nat) : list (Z * R) :=
  let offset_center :=
    Vector3f.add (input_ e idx)
      (Vector3f.scalar_mul (nth k gain_center 0) distance_from_center) in
  nearestKSearch e offset_center (k_ e * nth k gain_K 0%Z)%Z.

(** The body of the loop over the source indices, up to the test against
    [max_distance]: [min_index] and [min_output_dist] come from the
    previous iteration, [min_dist] starts at [FLT_MAX]. *)
Definition best_match (e : CorrespondenceEstimationBackProjection)
    (sn tn : Z -> Vector3f.t) (min_index : Z) (min_output_dist : R) (idx : Z)
    : option Best :=
  distance_from_center <-
    Vector3f.normalized (Vector3f.sub (input_ e idx) (center_ e)) ;;
  Some (fold_left
          (fun (b : Best) (k : nat) =>
             let t := best_neighbour (sn idx) tn (neighbours e idx distance_from_center k) in
             if Rlt_dec (fst (fst t)) (fst (fst b)) then t else b)
          [ 0; 1; 2 ]%nat (FLT_MAX, min_index, min_output_dist)).

(** The loop over the source indices; the result is the content of
    [correspondences] after the final [resize]. *)
Fixpoint correspondences_loop (e : CorrespondenceEstimationBackProjection)
    (sn tn : Z -> Vector3f.t) (max_distance : R)
    (min_index : Z) (min_output_dist : R) (indices : list Z)
    : option (list Correspondence) :=
  match indices with
  | [] => Some []
  | idx :: rest =>
      b <- best_match e sn tn min_index min_output_dist idx ;;
      others <- correspondences_loop e sn tn max_distance (snd (fst b)) (snd b) rest ;;
      if Rgt_dec (fst (fst b)) max_distance then Some others
      else Some (mkCorrespondence idx (snd (fst b)) (snd b) :: others)
  end.

(** [void determineCorrespondences(pcl::Correspondences& correspondences,
    double max_distance)]; the result is the new content of
    [correspondences]. *)
Definition determineCorrespondences (e : CorrespondenceEstimationBackProjection)
    (correspondences : list Correspondence) (max_distance : R)
    : option (list Correspondence) :=
  if negb (initCompute e) then Some correspondences
  else
    match source_normals_ e, target_normals_ e with
    | Some sn, Some tn => correspondences_loop e sn tn max_distance 0%Z 0 (indices_ e)
    | _, _ => Some correspondences
    end.

(** All the neighbours the three searches of one source point return. *)
Definition candidates (e : CorrespondenceEstimationBackProjection)
    (idx : Z) (distance_from_center : Vector3f.t) : list (Z * R) :=
  neighbours e idx distance_from_center 0 ++
  neighbours e idx distance_from_center 1 ++
  neighbours e idx distance_from_center 2.

(** The weighted distance by which neighbours are compared. *)
Definition cost (sn : Vector3f.t) (tn : Z -> Vector3f.t) (c : Z * R) : R :=
  dist (snd c) (cos_angle sn (tn (fst c))).

(** [subseq l l']: [l] is [l'] with some elements left out. *)
Inductive subseq {A : Type} : list A -> list A -> Prop :=
| subseq_nil : subseq [] []
| subseq_skip (a : A) (l l' : list A) : subseq l l' -> subseq l (a :: l')
| subseq_keep (a : A) (l l' : list A) : subseq l l' -> subseq (a :: l) (a :: l').

(** A cloud of two target points seen from one source point. *)
Definition sample_estimation : CorrespondenceEstimationBackProjection :=
  mkEstimation (fun _ => Vector3f.mk 1 0 0) [ 4 ]%Z
    (Some (fun _ => Vector3f.mk 0 0 1)) (Some (fun _ => Vector3f.mk 0 0 1))
    (Vector3f.mk 0 0 0) 1%Z
    (fun _ _ => [ (7%Z, 3); (8%Z, 2) ]) true.

(** The same, without the normals of the source. *)
Definition sample_estimation_no_normals : CorrespondenceEstimationBackProjection :=
  mkEstimation (fun _ => Vector3f.mk 1 0 0) [ 4 ]%Z
    None (Some (fun _ => Vector3f.mk 0 0 1))
    (Vector3f.mk 0 0 0) 1%Z
    (fun _ _ => [ (7%Z, 3); (8%Z, 2) ]) true.

(** Two source points and an empty target cloud. *)
Definition sample_estimation_empty : CorrespondenceEstimationBackProjection :=
  mkEstimation (fun _ => Vector3f.mk 1 0 0) [ 4; 5 ]%Z
    (Some (fun _ => Vector3f.mk 0 0 1)) (Some (fun _ => Vector3f.mk 0 0 1))
    (Vector3f.mk 0 0 0) 1%Z (fun _ _ => []) true.

End pcl_.

(** The timestamp of the latest [predict] among the calls [cs], or [d]
    when there is none. *)
Definition last_predict_ns (cs : list Call) (d : Z) : Z :=
  fold_left (fun a c => match c with CallPredict _ _ ns => ns | _ => a end) cs d.

(** The scale of the pose of the latest [observe] among the calls [cs],
    or [d] when there is none. *)
Definition last_observed_scale (getScale : MatrixXf.t -> R) (cs : list Call) (d : R) : R :=
  fold_left (fun a c => match c with CallObserve T _ => getScale T | _ => a end) cs d.

(** *** Sample inputs *)

(** A filter at rest at the origin, as [init] leaves it on the identity
    pose, with the last sample taken at 2 ns. *)
Definition sample_state : EKF :=
  mkEKF (Vector3f.mk 0 0 0) (Vector3f.mk 0 0 0) (Quaternionf.mk 1 0 0 0) 1
        (MatrixXf.scalar_mul 0.5 MatrixXf.Identity) 2%Z
        (Vector3f.mk 0 0 1) MatrixXf.Zero MatrixXf.Identity.

Definition sample_acc : Vector3f.t := Vector3f.mk 0 1 0.

Definition sample_gyro : Vector3f.t := Vector3f.mk PI 0 0.

(** A specific force that cancels the gravity of the sample filter. *)
Definition sample_rest_acc : Vector3f.t := Vector3f.mk 0 0 1.


(** A [normalizeRotation] that takes the rotation block as it is. *)
Definition rotation_block (T : MatrixXf.t) : MatrixXf.t := MatrixXf.block T 0 0.

(** A [getScale] and an [inverse] for the examples that do not depend on
    them. *)
Definition sample_getScale (_ : MatrixXf.t) : R := 1.

Definition sample_inverse (_ : nat) (M : MatrixXf.t) : MatrixXf.t := M.

Definition always_updatable (_ : EKF) : bool := true.

Definition never_updatable (_ : EKF) : bool := false.

(** *** Singular innovation covariances *)






(** *** Proof steps *)

(** Case analysis on a row or column index of a 9x9 matrix. *)
Ltac index9 i :=
  destruct i as [| [| [| [| [| [| [| [| [| i]]]]]]]]].

(** Evaluation of the block assignments at given indices. *)
Ltac unfold_blocks :=
  cbv beta iota zeta delta
    [calcF calcH F_spec H_spec hat cross unit
     MatrixXf.setBlock MatrixXf.Identity MatrixXf.Zero MatrixXf.mul_scalar
     MatrixXf.scalar_mul MatrixXf.opp MatrixXf.of_rows nth
     Vector3f.coeff Vector3f.of_mul Vector3f.x Vector3f.y Vector3f.z
     Nat.leb Nat.ltb Nat.eqb Nat.sub Nat.add andb].

(** Evaluation of a coefficient of a covariance on the sample inputs. *)
Ltac evaluate_covariance :=
  cbv beta iota zeta delta
    [MatrixXf.add MatrixXf.mul MatrixXf.sum MatrixXf.transpose
     MatrixXf.setBlock MatrixXf.Identity MatrixXf.Zero MatrixXf.mul_scalar
     MatrixXf.scalar_mul MatrixXf.opp MatrixXf.of_rows nth
     calcF F_spec hat cross unit sample_acc sample_state P LQL qua
     Quaternionf.toRotationMatrix Quaternionf.mul
     Quaternionf.w Quaternionf.x Quaternionf.y Quaternionf.z
     Vector3f.coeff Vector3f.of_mul Vector3f.x Vector3f.y Vector3f.z
     Nat.leb Nat.ltb Nat.eqb Nat.sub Nat.add andb].

(** Evaluation of vector and quaternion arithmetic on the sample inputs. *)
Ltac evaluate_vectors :=
  cbv beta iota zeta delta
    [Vector3f.add Vector3f.sub Vector3f.mul_scalar Vector3f.scalar_mul
     Vector3f.of_mul Vector3f.x Vector3f.y Vector3f.z
     Quaternionf.toRotationMatrix Quaternionf.mul
     Quaternionf.w Quaternionf.x Quaternionf.y Quaternionf.z
     sample_state sample_acc pos vel qua gravity].


(** Closes [0 < a] when [a] is the first disjunct that linear arithmetic
    proves positive. *)
Ltac some_positive :=
  first [ left; lra
        | right; left; lra
        | right; right; left; lra
        | right; right; right; lra ].

Section Methods.

(** [bool EKF::isUpadatable()], declared in [imu/ekf.hpp]: any predicate
    on the object. *)
Variable isUpadatable : EKF -> bool.

(** [getScale] and [normalizeRotation] of [core/util.hpp]: any functions
    of the measured pose. *)
Variable getScale : MatrixXf.t -> R.
Variable normalizeRotation : MatrixXf.t -> MatrixXf.t.

(** [MatrixBase::inverse()] on an [n] x [n] matrix.  It returns a matrix
    whatever its argument; nothing is assumed of the result. *)
Variable inverse : nat -> MatrixXf.t -> MatrixXf.t.

(** [void EKF::predict(acc, omega, ns)] *)
Definition predict (s : EKF) (acc omega : Vector3f.t) (ns : Z) : option EKF :=
  if negb (isUpadatable s) then Some (set_last_ns s ns)
  else
    let dt := dt_of ns (last_ns s) in
    let Rm := Quaternionf.toRotationMatrix (qua s) in
    dq <- exp (Vector3f.mul_scalar omega dt) ;;
    let nominal_acc := Vector3f.sub (Vector3f.of_mul Rm acc) (gravity s) in
    let pos' :=
      Vector3f.add (pos s)
        (Vector3f.add (Vector3f.mul_scalar (vel s) dt)
           (Vector3f.mul_scalar
              (Vector3f.mul_scalar (Vector3f.scalar_mul 0.5 nominal_acc) dt) dt)) in
    let vel' := Vector3f.add (vel s) (Vector3f.mul_scalar nominal_acc dt) in
    let qua' := Quaternionf.mul (qua s) dq in
    let F := calcF qua' acc dt in
    let P' :=
      MatrixXf.add
        (MatrixXf.mul 9 (MatrixXf.mul 9 F (P s)) (MatrixXf.transpose F))
        (MatrixXf.mul_scalar (LQL s) dt) in
    Some (mkEKF pos' vel' qua' (scale s) P' ns (gravity s) (LQL s) (W s)).

(** [void EKF::observe(const Eigen::Matrix4f& T, unsigned long)]; the
    second parameter has no name in the source. *)
Definition observe (s : EKF) (T : MatrixXf.t) (_ : Z) : option EKF :=
  let scale' := getScale T in
  let Rm := normalizeRotation T in
  q <- Quaternionf.fromRotationMatrix Rm ;;
  let t := Vector3f.of_column T 0 3 in
  let H := calcH (qua s) in
  let S :=
    MatrixXf.add (MatrixXf.mul 9 (MatrixXf.mul 9 H (P s)) (MatrixXf.transpose H))
                 (W s) in
  let Si := inverse 7 S in
  let K := MatrixXf.mul 7 (MatrixXf.mul 9 (P s) (MatrixXf.transpose H)) Si in
  let error := VectorXf.sub (toVec t q) (toVec (pos s) (qua s)) in
  let dx := VectorXf.of_mul 7 K error in
  dq <- exp (Vector3f.of_rows dx 6) ;;
  let pos' := Vector3f.add (pos s) (Vector3f.of_rows dx 0) in
  let vel' := Vector3f.add (vel s) (Vector3f.of_rows dx 3) in
  let qua' := Quaternionf.mul (qua s) dq in
  let P' := MatrixXf.sub (P s) (MatrixXf.mul 9 (MatrixXf.mul 7 K H) (P s)) in
  Some (mkEKF pos' vel' qua' scale' P' (last_ns s) (gravity s) (LQL s) (W s)).

(** One call on the filter. *)
Definition step (s : EKF) (c : Call) : option EKF :=
  match c with
  | CallInit T v => init s T v
  | CallPredict acc omega ns => predict s acc omega ns
  | CallObserve T ns => observe s T ns
  end.

(** A sequence of calls, in order; [None] once a call has produced a
    non-finite value. *)
Fixpoint run (s : EKF) (cs : list Call) : option EKF :=
  match cs with
  | [] => Some s
  | c :: cs' => s' <- step s c ;; run s' cs'
  end.





(** ** Scalars and vectors *)

Lemma fdiv_some (a b : R) : b <> 0 -> fdiv a b = Some (a / b).
Proof.
  intros Hb. unfold fdiv. destruct (Req_dec_T b 0) as [E | _]; [contradiction | reflexivity].
Qed.

Lemma fsqrt_some (a : R) : 0 <= a -> fsqrt a = Some (sqrt a).
Proof.
  intros Ha. unfold fsqrt. destruct (Rlt_dec a 0) as [L | _]; [lra | reflexivity].
Qed.

Lemma half_literal : 0.5 = / 2.
Proof. lra. Qed.

Lemma Vector3f_squaredNorm_nonneg (v : Vector3f.t) : 0 <= Vector3f.squaredNorm v.
Proof. unfold Vector3f.squaredNorm. nra. Qed.

Lemma Vector3f_norm_some (v : Vector3f.t) :
  Vector3f.norm v = Some (sqrt (Vector3f.squaredNorm v)).
Proof. apply fsqrt_some, Vector3f_squaredNorm_nonneg. Qed.

Lemma Vector3f_normalized_pos (v : Vector3f.t) :
  0 < Vector3f.squaredNorm v ->
  Vector3f.normalized v =
  Some (Vector3f.mk (Vector3f.x v / sqrt (Vector3f.squaredNorm v))
                    (Vector3f.y v / sqrt (Vector3f.squaredNorm v))
                    (Vector3f.z v / sqrt (Vector3f.squaredNorm v))).
Proof.
  intros Hpos. unfold Vector3f.normalized.
  destruct (Rlt_dec 0 (Vector3f.squaredNorm v)) as [_ | N]; [| contradiction].
  rewrite fsqrt_some by lra. cbn [bind]. unfold Vector3f.div_scalar.
  assert (Hn : sqrt (Vector3f.squaredNorm v) <> 0).
  { apply Rgt_not_eq, sqrt_lt_R0, Hpos. }
  rewrite !fdiv_some by exact Hn. reflexivity.
Qed.

Lemma Vector3f_normalized_null (v : Vector3f.t) :
  ~ 0 < Vector3f.squaredNorm v -> Vector3f.normalized v = Some v.
Proof.
  intros N. unfold Vector3f.normalized.
  destruct (Rlt_dec 0 (Vector3f.squaredNorm v)); [contradiction | reflexivity].
Qed.

(** ** Sums and products with the identity matrix *)

Lemma sum_Identity_beyond (n i : nat) (f : nat -> R) :
  (n <= i)%nat -> MatrixXf.sum n (fun k => MatrixXf.Identity i k * f k) = 0.
Proof.
  induction n as [| n IH]; intros Hle; cbn [MatrixXf.sum]; [reflexivity |].
  rewrite IH by lia. unfold MatrixXf.Identity.
  destruct (Nat.eqb_spec i n) as [E | _]; [lia | ring].
Qed.

Lemma sum_Identity_l (n i : nat) (f : nat -> R) :
  (i < n)%nat -> MatrixXf.sum n (fun k => MatrixXf.Identity i k * f k) = f i.
Proof.
  induction n as [| n IH]; intros Hlt; [lia |].
  cbn [MatrixXf.sum]. destruct (Nat.eq_dec i n) as [-> | Hne].
  - rewrite sum_Identity_beyond by lia. unfold MatrixXf.Identity.
    rewrite Nat.eqb_refl. ring.
  - rewrite IH by lia. unfold MatrixXf.Identity.
    destruct (Nat.eqb_spec i n) as [E | _]; [contradiction | ring].
Qed.

Lemma sum_Identity_r (n j : nat) (f : nat -> R) :
  (j < n)%nat -> MatrixXf.sum n (fun k => f k * MatrixXf.Identity j k) = f j.
Proof.
  intros Hlt. rewrite <- (sum_Identity_l n j f Hlt).
  clear Hlt. induction n as [| n IH]; cbn [MatrixXf.sum]; [reflexivity |].
  rewrite IH. ring.
Qed.

(** [hat v] is the matrix of the cross product by [v]. *)
Lemma hat_cross (a b : Vector3f.t) : Vector3f.of_mul (hat a) b = cross a b.
Proof.
  unfold cross. unfold_blocks. f_equal; ring.
Qed.

(** [calcF] builds the Jacobian of the specification, for the rotation
    matrix of the quaternion it is given. *)
Lemma calcF_eq_spec (q : Quaternionf.t) (acc : Vector3f.t) (dt : R) :
  forall i j, calcF q acc dt i j = F_spec (Quaternionf.toRotationMatrix q) acc dt i j.
Proof.
  intros i j. index9 i; index9 j; unfold_blocks; try reflexivity; ring.
Qed.

(** With [dt = 0] the Jacobian is the identity. *)
Lemma calcF_zero_dt (q : Quaternionf.t) (acc : Vector3f.t) :
  forall i j, calcF q acc 0 i j = MatrixXf.Identity i j.
Proof.
  intros i j. index9 i; index9 j; unfold_blocks; try reflexivity; ring.
Qed.


(** ** The exponential map *)

(** [exp] never divides by zero, and computes the exponential map of the
    specification. *)
Lemma exp_refines_spec (v : Vector3f.t) : exp v = Some (exp_spec v).
Proof.
  unfold exp, exp_spec. rewrite Vector3f_norm_some. cbn [bind].
  destruct (Rlt_dec 0 (Vector3f.squaredNorm v)) as [Hpos | Hnull].
  - rewrite Vector3f_normalized_pos by exact Hpos. cbn [bind].
    destruct (Req_dec_T (sqrt (Vector3f.squaredNorm v)) 0) as [E | _].
    + pose proof (sqrt_lt_R0 _ Hpos). lra.
    + reflexivity.
  - rewrite Vector3f_normalized_null by exact Hnull. cbn [bind].
    assert (E0 : Vector3f.squaredNorm v = 0).
    { pose proof (Vector3f_squaredNorm_nonneg v). lra. }
    rewrite E0, sqrt_0.
    destruct (Req_dec_T 0 0) as [_ | N]; [| contradiction].
    unfold Vector3f.scalar_mul. cbn [Vector3f.x Vector3f.y Vector3f.z].
    replace (0 / 2) with 0 by lra. rewrite cos_0, sin_0, !Rmult_0_l. reflexivity.
Qed.

(** C1. On a vector of norm zero, [exp] returns exactly the identity
    quaternion (1, 0, 0, 0): every coefficient is finite and no division
    by zero takes place ([normalized] leaves such a vector as it is). *)
Theorem exp_zero_norm_identity (v : Vector3f.t) :
  Vector3f.norm v = Some 0 -> exp v = Some (Quaternionf.mk 1 0 0 0).
Proof.
  intros Hn. rewrite Vector3f_norm_some in Hn. injection Hn as Hn.
  rewrite exp_refines_spec. unfold exp_spec. rewrite Hn.
  destruct (Req_dec_T 0 0) as [_ | N]; [reflexivity | contradiction].
Qed.

(** ** Prediction *)

(** What [predict] computes once the filter is updatable. *)
Lemma predict_updatable (s : EKF) (acc omega : Vector3f.t) (ns : Z) :
  isUpadatable s = true ->
  predict s acc omega ns =
  let dt := dt_of ns (last_ns s) in
  let nominal_acc :=
    Vector3f.sub (Vector3f.of_mul (Quaternionf.toRotationMatrix (qua s)) acc) (gravity s) in
  let qua' := Quaternionf.mul (qua s) (exp_spec (Vector3f.mul_scalar omega dt)) in
  let F := calcF qua' acc dt in
  Some (mkEKF
          (Vector3f.add (pos s)
             (Vector3f.add (Vector3f.mul_scalar (vel s) dt)
                (Vector3f.mul_scalar
                   (Vector3f.mul_scalar (Vector3f.scalar_mul 0.5 nominal_acc) dt) dt)))
          (Vector3f.add (vel s) (Vector3f.mul_scalar nominal_acc dt))
          qua' (scale s)
          (MatrixXf.add
             (MatrixXf.mul 9 (MatrixXf.mul 9 F (P s)) (MatrixXf.transpose F))
             (MatrixXf.mul_scalar (LQL s) dt))
          ns (gravity s) (LQL s) (W s)).
Proof.
  intros Hup. unfold predict. rewrite Hup. cbn [negb].
  rewrite exp_refines_spec. reflexivity.
Qed.

(** C4, as the code has it.  State propagation of an updatable filter:
    with [dt] the unsigned 64-bit difference of the two timestamps times
    1e-9 (which is [(ns - last_ns) * 1e-9] when the timestamps are in
    order), [R] the rotation matrix of the current orientation and
    [a_world = R * acc - gravity], the position gains
    [velocity * dt + 1/2 * a_world * dt^2], the velocity gains
    [a_world * dt], the orientation is multiplied on the right by
    [exp (gyro * dt)], and the timestamp is recorded. *)
Theorem predict_state_update (s : EKF) (acc gyro : Vector3f.t) (ns : Z) :
  isUpadatable s = true ->
  let dt := dt_of ns (last_ns s) in
  let a_world :=
    Vector3f.sub (Vector3f.of_mul (Quaternionf.toRotationMatrix (qua s)) acc) (gravity s) in
  exists s' dq,
    predict s acc gyro ns = Some s' /\
    exp (Vector3f.mul_scalar gyro dt) = Some dq /\
    pos s' =
      Vector3f.add (pos s)
        (Vector3f.add (Vector3f.mul_scalar (vel s) dt)
           (Vector3f.mul_scalar a_world (/ 2 * (dt * dt)))) /\
    vel s' = Vector3f.add (vel s) (Vector3f.mul_scalar a_world dt) /\
    qua s' = Quaternionf.mul (qua s) dq /\
    last_ns s' = ns /\
    ((0 <= last_ns s <= ns)%Z -> (ns < 2 ^ 64)%Z ->
     dt = IZR (ns - last_ns s) * 1e-9).
Proof.
  intros Hup dt a_world.
  eexists. exists (exp_spec (Vector3f.mul_scalar gyro dt)).
  split; [apply (predict_updatable s acc gyro ns Hup) |].
  split; [apply exp_refines_spec |].
  cbn [pos vel qua last_ns]. fold dt. fold a_world.
  repeat split.
  - unfold Vector3f.add, Vector3f.mul_scalar, Vector3f.scalar_mul.
    cbn [Vector3f.x Vector3f.y Vector3f.z]. rewrite half_literal.
    f_equal; f_equal; ring.
  - intros Hord Hmax. unfold dt, dt_of, float_of_u64, u64_sub.
    rewrite Z.mod_small by lia. reflexivity.
Qed.

(** C6. While the filter is not updatable, [predict] records the
    timestamp and leaves position, velocity, orientation, scale and
    covariance as they are. *)
Theorem predict_not_updatable (s : EKF) (acc gyro : Vector3f.t) (ns : Z) :
  isUpadatable s = false ->
  exists s',
    predict s acc gyro ns = Some s' /\
    last_ns s' = ns /\
    pos s' = pos s /\ vel s' = vel s /\ qua s' = qua s /\
    scale s' = scale s /\ P s' = P s /\
    gravity s' = gravity s /\ LQL s' = LQL s /\ W s' = W s.
Proof.
  intros Hup. exists (set_last_ns s ns). unfold predict. rewrite Hup.
  cbn. repeat split.
Qed.

(** The elapsed time between a timestamp and itself is zero. *)
Lemma dt_of_same (ns : Z) : dt_of ns ns = 0.
Proof.
  unfold dt_of, float_of_u64, u64_sub. rewrite Z.sub_diag, Z.mod_0_l by lia.
  lra.
Qed.

Lemma exp_spec_zero_rate (omega : Vector3f.t) :
  exp_spec (Vector3f.mul_scalar omega 0) = Quaternionf.mk 1 0 0 0.
Proof.
  unfold exp_spec.
  replace (Vector3f.squaredNorm (Vector3f.mul_scalar omega 0)) with 0
    by (unfold Vector3f.squaredNorm, Vector3f.mul_scalar; cbn; ring).
  rewrite sqrt_0. destruct (Req_dec_T 0 0) as [_ | N]; [reflexivity | contradiction].
Qed.

Lemma Quaternionf_mul_identity (q : Quaternionf.t) :
  Quaternionf.mul q (Quaternionf.mk 1 0 0 0) = q.
Proof.
  destruct q as [qw qx qy qz]. unfold Quaternionf.mul. cbn. f_equal; ring.
Qed.

(** A [predict] on the timestamp already recorded changes neither the
    position, the velocity, the orientation nor the 9x9 covariance. *)
Lemma predict_zero_dt (s : EKF) (acc omega : Vector3f.t) :
  exists s',
    predict s acc omega (last_ns s) = Some s' /\
    pos s' = pos s /\ vel s' = vel s /\ qua s' = qua s /\
    MatrixXf.eq_on 9 9 (P s') (P s) /\ last_ns s' = last_ns s.
Proof.
  destruct (isUpadatable s) eqn:Hup.
  - eexists. split; [apply (predict_updatable s acc omega (last_ns s) Hup) |].
    cbv zeta. rewrite dt_of_same. cbn [pos vel qua P last_ns].
    rewrite exp_spec_zero_rate, Quaternionf_mul_identity.
    repeat split.
    + destruct (pos s) as [px py pz].
      unfold Vector3f.add, Vector3f.mul_scalar, Vector3f.scalar_mul. cbn.
      f_equal; ring.
    + destruct (vel s) as [ux uy uz].
      unfold Vector3f.add, Vector3f.mul_scalar. cbn. f_equal; ring.
    + intros i j Hi Hj.
      unfold MatrixXf.add, MatrixXf.mul, MatrixXf.mul_scalar, MatrixXf.transpose.
      set (F := calcF (qua s) acc 0).
      assert (HF : F = MatrixXf.Identity).
      { apply functional_extensionality; intros a.
        apply functional_extensionality; intros b. apply calcF_zero_dt. }
      rewrite HF, (sum_Identity_r 9 j) by exact Hj.
      rewrite (sum_Identity_l 9 i) by exact Hi. ring.
  - exists (set_last_ns s (last_ns s)). unfold predict. rewrite Hup. cbn.
    repeat split.
Qed.

(** C8. A second [predict] on the timestamp of the previous one (so that
    [dt = 0]) leaves position, velocity, orientation and the 9x9
    covariance unchanged. *)
Theorem predict_same_timestamp_twice
    (s : EKF) (acc gyro acc' gyro' : Vector3f.t) (ns : Z) :
  exists s1,
    predict s acc gyro ns = Some s1 /\
    exists s2,
      predict s1 acc' gyro' ns = Some s2 /\
      dt_of ns (last_ns s1) = 0 /\
      pos s2 = pos s1 /\ vel s2 = vel s1 /\ qua s2 = qua s1 /\
      MatrixXf.eq_on 9 9 (P s2) (P s1).
Proof.
  assert (H1 : exists s1, predict s acc gyro ns = Some s1 /\ last_ns s1 = ns).
  { destruct (isUpadatable s) eqn:Hup.
    - eexists. split; [apply (predict_updatable s acc gyro ns Hup) | reflexivity].
    - exists (set_last_ns s ns). unfold predict. rewrite Hup. split; reflexivity. }
  destruct H1 as (s1 & Hs1 & Hns). exists s1. split; [exact Hs1 |].
  destruct (predict_zero_dt s1 acc' gyro') as (s2 & Hs2 & Hp & Hv & Hq & HP & _).
  rewrite Hns in Hs2. exists s2. rewrite Hns, dt_of_same. auto 10.
Qed.

(** C7, as the code has it.  For an updatable filter and a timestamp that
    is smaller than the recorded one, the unsigned difference wraps around:
    [dt] is [(2^64 - (last_ns - ns)) * 1e-9], a positive number, and the
    propagation goes on unguarded with that [dt]. *)
Theorem predict_out_of_order_dt (s : EKF) (acc gyro : Vector3f.t) (ns : Z) :
  isUpadatable s = true ->
  (0 <= ns < last_ns s)%Z -> (last_ns s < 2 ^ 64)%Z ->
  let dt := dt_of ns (last_ns s) in
  let a_world :=
    Vector3f.sub (Vector3f.of_mul (Quaternionf.toRotationMatrix (qua s)) acc) (gravity s) in
  dt = IZR (2 ^ 64 - (last_ns s - ns)) * 1e-9 /\
  0 < dt /\
  exists s',
    predict s acc gyro ns = Some s' /\
    last_ns s' = ns /\
    vel s' = Vector3f.add (vel s) (Vector3f.mul_scalar a_world dt) /\
    qua s' = Quaternionf.mul (qua s) (exp_spec (Vector3f.mul_scalar gyro dt)).
Proof.
  intros Hup Hord Hmax dt a_world.
  assert (Hdt : dt = IZR (2 ^ 64 - (last_ns s - ns)) * 1e-9).
  { unfold dt, dt_of, float_of_u64, u64_sub. do 2 f_equal.
    rewrite <- (Z.mod_small (2 ^ 64 - (last_ns s - ns)) (2 ^ 64)) by lia.
    replace (2 ^ 64 - (last_ns s - ns))%Z with (ns - last_ns s + 1 * 2 ^ 64)%Z by lia.
    now rewrite Z.mod_add by lia. }
  split; [exact Hdt |]. split.
  - rewrite Hdt. apply Rmult_lt_0_compat; [apply IZR_lt; lia | lra].
  - eexists. split; [apply (predict_updatable s acc gyro ns Hup) |].
    repeat split.
Qed.

(** C2, as the code has it.  The covariance of an updatable filter becomes
    [F * P * F^T + LQL * dt], where [F] is the Jacobian of the
    specification taken at the rotation matrix of the orientation after
    the increment, [orientation * exp (gyro * dt)]. *)
Theorem predict_covariance_update (s : EKF) (acc gyro : Vector3f.t) (ns : Z) :
  isUpadatable s = true ->
  let dt := dt_of ns (last_ns s) in
  exists s' dq,
    predict s acc gyro ns = Some s' /\
    exp (Vector3f.mul_scalar gyro dt) = Some dq /\
    qua s' = Quaternionf.mul (qua s) dq /\
    let F := F_spec (Quaternionf.toRotationMatrix (Quaternionf.mul (qua s) dq)) acc dt in
    P s' =
      MatrixXf.add
        (MatrixXf.mul 9 (MatrixXf.mul 9 F (P s)) (MatrixXf.transpose F))
        (MatrixXf.mul_scalar (LQL s) dt).
Proof.
  intros Hup dt.
  eexists. exists (exp_spec (Vector3f.mul_scalar gyro dt)).
  split; [apply (predict_updatable s acc gyro ns Hup) |].
  split; [apply exp_refines_spec |].
  split; [reflexivity |].
  cbv zeta. cbn [P]. fold dt.
  set (q' := Quaternionf.mul (qua s) (exp_spec (Vector3f.mul_scalar gyro dt))).
  replace (calcF q' acc dt) with (F_spec (Quaternionf.toRotationMatrix q') acc dt);
    [reflexivity |].
  apply functional_extensionality; intros i.
  apply functional_extensionality; intros j. symmetry. apply calcF_eq_spec.
Qed.

(** ** Unit quaternions *)


Lemma Quaternionf_norm_unit (q : Quaternionf.t) :
  Quaternionf.squaredNorm q = 1 -> Quaternionf.norm q = Some 1.
Proof.
  intros Hq. unfold Quaternionf.norm. rewrite Hq, fsqrt_some by lra.
  now rewrite sqrt_1.
Qed.

Lemma exp_spec_unit (v : Vector3f.t) : Quaternionf.squaredNorm (exp_spec v) = 1.
Proof.
  unfold exp_spec.
  destruct (Req_dec_T (sqrt (Vector3f.squaredNorm v)) 0) as [E | N].
  - unfold Quaternionf.squaredNorm. cbn. ring.
  - set (n := sqrt (Vector3f.squaredNorm v)) in *.
    assert (Hn : n * n = Vector3f.squaredNorm v)
      by apply sqrt_sqrt, Vector3f_squaredNorm_nonneg.
    unfold Quaternionf.squaredNorm. cbn.
    pose proof (sin2_cos2 (n / 2)) as Hsc. unfold Rsqr in Hsc.
    transitivity (sin (n / 2) * sin (n / 2) * (Vector3f.squaredNorm v / (n * n))
                  + cos (n / 2) * cos (n / 2)).
    + unfold Vector3f.squaredNorm. field. exact N.
    + rewrite <- Hn. replace (n * n / (n * n)) with 1 by (field; exact N). lra.
Qed.

Lemma Quaternionf_normalized_unit (q : Quaternionf.t) :
  0 < Quaternionf.squaredNorm q ->
  exists q', Quaternionf.normalized q = Some q' /\ Quaternionf.squaredNorm q' = 1.
Proof.
  intros Hpos. unfold Quaternionf.normalized.
  destruct (Rlt_dec 0 (Quaternionf.squaredNorm q)) as [_ | N]; [| contradiction].
  rewrite fsqrt_some by lra. cbn [bind].
  set (n := sqrt (Quaternionf.squaredNorm q)).
  assert (Hn : n <> 0) by (apply Rgt_not_eq, sqrt_lt_R0, Hpos).
  assert (Hn2 : n * n = Quaternionf.squaredNorm q) by (apply sqrt_sqrt; lra).
  rewrite !fdiv_some by exact Hn. cbn [bind].
  eexists; split; [reflexivity |].
  unfold Quaternionf.squaredNorm at 1. cbn.
  transitivity (Quaternionf.squaredNorm q / (n * n)).
  - unfold Quaternionf.squaredNorm. field. exact Hn.
  - rewrite <- Hn2. field. exact Hn.
Qed.

Lemma sum_of_squares_pos (a b c d : R) :
  0 < a \/ 0 < b \/ 0 < c \/ 0 < d -> 0 < a * a + b * b + c * c + d * d.
Proof. intros [H | [H | [H | H]]]; nra. Qed.

(** The conversion of a 3x3 matrix never fails, whatever the matrix: the
    square roots are taken of numbers that are at least 1, and the
    coefficient computed first is positive. *)
Lemma Quaternionf_fromRotationMatrix_total (mat : MatrixXf.t) :
  exists q,
    Quaternionf.fromRotationMatrix mat = Some q /\ 0 < Quaternionf.squaredNorm q.
Proof.
  unfold Quaternionf.fromRotationMatrix. cbv zeta.
  destruct (Rlt_dec 0 (mat@(0, 0) + mat@(1, 1) + mat@(2, 2))) as [Htr | Htr].
  - set (t1 := sqrt (mat@(0, 0) + mat@(1, 1) + mat@(2, 2) + 1)).
    assert (Ht : 0 < t1) by (apply sqrt_lt_R0; lra).
    rewrite fsqrt_some by lra. cbn [bind]. fold t1.
    rewrite fdiv_some by lra. cbn [bind].
    eexists; split; [reflexivity |].
    unfold Quaternionf.squaredNorm, Quaternionf.setW. cbn. rewrite half_literal.
    apply sum_of_squares_pos; some_positive.
  - destruct (Rlt_dec mat@(0, 0) mat@(1, 1)) as [H01 | H01];
      [destruct (Rlt_dec mat@(1, 1) mat@(2, 2)) as [H2 | H2]
      | destruct (Rlt_dec mat@(0, 0) mat@(2, 2)) as [H2 | H2]];
      cbn [Nat.modulo Nat.divmod Nat.add fst snd Nat.sub];
      match goal with
      | |- context [fsqrt ?a] =>
          set (t1 := sqrt a);
          assert (Ht : 0 < t1) by (apply sqrt_lt_R0; lra);
          rewrite (fsqrt_some a) by lra; cbn [bind]; fold t1
      end;
      rewrite fdiv_some by lra; cbn [bind];
      (eexists; split; [reflexivity |]);
      unfold Quaternionf.squaredNorm, Quaternionf.setW, Quaternionf.setCoeff;
      cbn; rewrite half_literal; apply sum_of_squares_pos; some_positive.
Qed.

(** ** Initialization *)


(** ** Observation *)


(** What [observe] computes: it always completes. *)
Lemma observe_total (s : EKF) (T : MatrixXf.t) (ns : Z) :
  exists q,
    Quaternionf.fromRotationMatrix (normalizeRotation T) = Some q /\
    observe s T ns =
    let H := calcH (qua s) in
    let S :=
      MatrixXf.add (MatrixXf.mul 9 (MatrixXf.mul 9 H (P s)) (MatrixXf.transpose H))
                   (W s) in
    let K := MatrixXf.mul 7 (MatrixXf.mul 9 (P s) (MatrixXf.transpose H)) (inverse 7 S) in
    let dx :=
      VectorXf.of_mul 7 K
        (VectorXf.sub (toVec (Vector3f.of_column T 0 3) q) (toVec (pos s) (qua s))) in
    Some (mkEKF (Vector3f.add (pos s) (Vector3f.of_rows dx 0))
                (Vector3f.add (vel s) (Vector3f.of_rows dx 3))
                (Quaternionf.mul (qua s) (exp_spec (Vector3f.of_rows dx 6)))
                (getScale T)
                (MatrixXf.sub (P s) (MatrixXf.mul 9 (MatrixXf.mul 7 K H) (P s)))
                (last_ns s) (gravity s) (LQL s) (W s)).
Proof.
  destruct (Quaternionf_fromRotationMatrix_total (normalizeRotation T)) as (q & Hq & _).
  exists q. split; [exact Hq |].
  unfold observe. rewrite Hq. cbn [bind]. cbv zeta.
  rewrite exp_refines_spec. reflexivity.
Qed.


(** C10. [observe] ignores its timestamp: the result is the same for any
    two timestamps, [last_ns] is neither read (the rest of the result does
    not depend on it) nor written, so that the next [predict] measures its
    [dt] from the timestamp recorded before the observation. *)
Theorem observe_ignores_timestamp (s : EKF) (T : MatrixXf.t) (ns1 ns2 l : Z) :
  observe s T ns1 = observe s T ns2 /\
  observe (set_last_ns s l) T ns1 =
    option_map (fun s' => set_last_ns s' l) (observe s T ns1) /\
  exists s',
    observe s T ns1 = Some s' /\
    last_ns s' = last_ns s /\
    forall acc gyro ns,
      isUpadatable s' = true ->
      exists s'',
        predict s' acc gyro ns = Some s'' /\
        vel s'' =
          Vector3f.add (vel s')
            (Vector3f.mul_scalar
               (Vector3f.sub
                  (Vector3f.of_mul (Quaternionf.toRotationMatrix (qua s')) acc)
                  (gravity s'))
               (dt_of ns (last_ns s))).
Proof.
  split; [reflexivity |]. split.
  - destruct (observe_total s T ns1) as (q & Hq & ->).
    destruct (observe_total (set_last_ns s l) T ns1) as (q' & Hq' & ->).
    assert (E : q' = q) by congruence. rewrite E. reflexivity.
  - destruct (observe_total s T ns1) as (q & _ & Hobs).
    eexists. split; [exact Hobs |]. split; [reflexivity |].
    intros acc gyro ns Hup.
    eexists. split; [apply (predict_updatable _ acc gyro ns Hup) | reflexivity].
Qed.

(** ** The unit-norm invariant *)




(** ** State readout *)

(** C9. [getState] returns the 4x4 matrix whose top-left 3x3 block is
    [scale] times the rotation matrix of the orientation, whose top-right
    3x1 block is the position and whose bottom row is [0, 0, 0, 1]; the
    filter is left as it was. *)
Theorem getState_homogeneous (s : EKF) :
  snd (getState s) = s /\
  (forall i j, (i < 3)%nat -> (j < 3)%nat ->
     fst (getState s) i j = scale s * Quaternionf.toRotationMatrix (qua s) i j) /\
  (fst (getState s))@(0, 3) = Vector3f.x (pos s) /\
  (fst (getState s))@(1, 3) = Vector3f.y (pos s) /\
  (fst (getState s))@(2, 3) = Vector3f.z (pos s) /\
  (fst (getState s))@(3, 0) = 0 /\
  (fst (getState s))@(3, 1) = 0 /\
  (fst (getState s))@(3, 2) = 0 /\
  (fst (getState s))@(3, 3) = 1.
Proof.
  split; [reflexivity |]. split; [| repeat split].
  intros i j Hi Hj. unfold getState. cbn [fst].
  do 3 (destruct i as [| i]; [do 3 (destruct j as [| j]; [reflexivity |]); lia |]).
  lia.
Qed.

(** ** More on the exponential map *)

Lemma exp_spec_null (v : Vector3f.t) :
  Vector3f.squaredNorm v = 0 -> exp_spec v = Quaternionf.mk 1 0 0 0.
Proof.
  intros Hv. unfold exp_spec. rewrite Hv, sqrt_0.
  destruct (Req_dec_T 0 0) as [_ | N]; [reflexivity | contradiction].
Qed.

(** The exponential of the rotation vector [u * theta], for a unit axis
    [u] and an angle [theta] of any sign. *)
Lemma exp_spec_axis_angle (u : Vector3f.t) (theta : R) :
  Vector3f.squaredNorm u = 1 ->
  exp_spec (Vector3f.mul_scalar u theta) =
  Quaternionf.mk (cos (theta / 2))
    (sin (theta / 2) * Vector3f.x u)
    (sin (theta / 2) * Vector3f.y u)
    (sin (theta / 2) * Vector3f.z u).
Proof.
  intros Hu. destruct u as [ux uy uz]. unfold Vector3f.squaredNorm in Hu. cbn in Hu.
  unfold exp_spec.
  replace (Vector3f.squaredNorm (Vector3f.mul_scalar (Vector3f.mk ux uy uz) theta))
    with (theta * theta)
    by (unfold Vector3f.squaredNorm, Vector3f.mul_scalar; cbn;
        transitivity (theta * theta * (ux * ux + uy * uy + uz * uz));
        [rewrite Hu | ]; ring).
  unfold Vector3f.mul_scalar. cbn [Vector3f.x Vector3f.y Vector3f.z].
  destruct (Rtotal_order theta 0) as [Hneg | [Hzero | Hpos]].
  - replace (theta * theta) with ((- theta) * (- theta)) by ring.
    rewrite sqrt_square by lra.
    destruct (Req_dec_T (- theta) 0) as [E | N]; [lra |].
    replace (- theta / 2) with (- (theta / 2)) by lra.
    rewrite cos_neg, sin_neg. f_equal; field; lra.
  - subst theta. replace (0 * 0) with 0 by ring. rewrite sqrt_0.
    destruct (Req_dec_T 0 0) as [_ | N]; [| contradiction].
    replace (0 / 2) with 0 by lra. rewrite cos_0, sin_0. f_equal; ring.
  - rewrite sqrt_square by lra.
    destruct (Req_dec_T theta 0) as [E | N]; [lra |].
    f_equal; field; lra.
Qed.

(** Two rotations about the same unit axis. *)
Lemma axis_quaternion_mul (u : Vector3f.t) (a b : R) :
  Vector3f.squaredNorm u = 1 ->
  Quaternionf.mul
    (Quaternionf.mk (cos a) (sin a * Vector3f.x u) (sin a * Vector3f.y u)
                    (sin a * Vector3f.z u))
    (Quaternionf.mk (cos b) (sin b * Vector3f.x u) (sin b * Vector3f.y u)
                    (sin b * Vector3f.z u)) =
  Quaternionf.mk (cos (a + b)) (sin (a + b) * Vector3f.x u)
                 (sin (a + b) * Vector3f.y u) (sin (a + b) * Vector3f.z u).
Proof.
  intros Hu. destruct u as [ux uy uz]. unfold Vector3f.squaredNorm in Hu. cbn in Hu.
  unfold Quaternionf.mul. cbn. rewrite cos_plus, sin_plus. f_equal; try ring.
  transitivity (cos a * cos b - sin a * sin b * (ux * ux + uy * uy + uz * uz));
    [ring | rewrite Hu; ring].
Qed.

(** Rotation vectors along one direction add up. *)
Lemma exp_spec_scale_add (omega : Vector3f.t) (a b : R) :
  Quaternionf.mul (exp_spec (Vector3f.mul_scalar omega a))
                  (exp_spec (Vector3f.mul_scalar omega b)) =
  exp_spec (Vector3f.mul_scalar omega (a + b)).
Proof.
  assert (Hsq : forall c, Vector3f.squaredNorm (Vector3f.mul_scalar omega c)
                          = c * c * Vector3f.squaredNorm omega).
  { intros c. unfold Vector3f.squaredNorm, Vector3f.mul_scalar. cbn. ring. }
  destruct (Rlt_dec 0 (Vector3f.squaredNorm omega)) as [Hpos | Hnull].
  - set (n := sqrt (Vector3f.squaredNorm omega)).
    assert (Hn : 0 < n) by (apply sqrt_lt_R0, Hpos).
    assert (Hn2 : n * n = Vector3f.squaredNorm omega) by (apply sqrt_sqrt; lra).
    set (u := Vector3f.mk (Vector3f.x omega / n) (Vector3f.y omega / n)
                          (Vector3f.z omega / n)).
    assert (Hu : Vector3f.squaredNorm u = 1).
    { unfold u, Vector3f.squaredNorm. cbn.
      transitivity (Vector3f.squaredNorm omega / (n * n)).
      - unfold Vector3f.squaredNorm. field. lra.
      - rewrite <- Hn2. field. lra. }
    assert (Hv : forall c, Vector3f.mul_scalar omega c = Vector3f.mul_scalar u (n * c)).
    { intros c. unfold u, Vector3f.mul_scalar. cbn. f_equal; field; lra. }
    rewrite !Hv, !exp_spec_axis_angle by exact Hu.
    rewrite axis_quaternion_mul by exact Hu.
    replace (n * a / 2 + n * b / 2) with (n * (a + b) / 2) by lra. reflexivity.
  - assert (H0 : Vector3f.squaredNorm omega = 0).
    { pose proof (Vector3f_squaredNorm_nonneg omega). lra. }
    rewrite !exp_spec_null by (rewrite Hsq, H0; ring).
    apply Quaternionf_mul_identity.
Qed.

Lemma Quaternionf_mul_assoc (a b c : Quaternionf.t) :
  Quaternionf.mul (Quaternionf.mul a b) c = Quaternionf.mul a (Quaternionf.mul b c).
Proof.
  destruct a, b, c. unfold Quaternionf.mul. cbn. f_equal; ring.
Qed.

(** X1. [exp] completes on every vector, and its result has norm 1. *)
Theorem exp_total_unit (v : Vector3f.t) :
  exists q, exp v = Some q /\ Quaternionf.norm q = Some 1.
Proof.
  exists (exp_spec v). split; [apply exp_refines_spec |].
  apply Quaternionf_norm_unit, exp_spec_unit.
Qed.

(** X2. For a unit axis [u] and an angle [theta] of any sign, [exp] of
    [u * theta] is the half-angle quaternion
    [(cos (theta/2), sin (theta/2) * u)]. *)
Theorem exp_axis_angle (u : Vector3f.t) (theta : R) :
  Vector3f.squaredNorm u = 1 ->
  exp (Vector3f.mul_scalar u theta) =
  Some (Quaternionf.mk (cos (theta / 2))
          (sin (theta / 2) * Vector3f.x u)
          (sin (theta / 2) * Vector3f.y u)
          (sin (theta / 2) * Vector3f.z u)).
Proof.
  intros Hu. rewrite exp_refines_spec. f_equal. apply exp_spec_axis_angle, Hu.
Qed.

(** X3. Increments along one angular rate compose: the product of
    [exp (omega * a)] and [exp (omega * b)] is [exp (omega * (a + b))]. *)
Theorem exp_scale_add (omega : Vector3f.t) (a b : R) :
  exists qa qb,
    exp (Vector3f.mul_scalar omega a) = Some qa /\
    exp (Vector3f.mul_scalar omega b) = Some qb /\
    exp (Vector3f.mul_scalar omega (a + b)) = Some (Quaternionf.mul qa qb).
Proof.
  exists (exp_spec (Vector3f.mul_scalar omega a)).
  exists (exp_spec (Vector3f.mul_scalar omega b)).
  rewrite !exp_refines_spec, exp_spec_scale_add. auto.
Qed.

(** X4. The exponential of the opposite vector is the inverse rotation:
    [exp v * exp (- v)] is the identity quaternion. *)
Theorem exp_opposite_inverse (v : Vector3f.t) :
  exists q q',
    exp v = Some q /\
    exp (Vector3f.mk (- Vector3f.x v) (- Vector3f.y v) (- Vector3f.z v)) = Some q' /\
    Quaternionf.mul q q' = Quaternionf.mk 1 0 0 0.
Proof.
  exists (exp_spec v).
  exists (exp_spec (Vector3f.mk (- Vector3f.x v) (- Vector3f.y v) (- Vector3f.z v))).
  rewrite !exp_refines_spec. repeat split.
  replace v with (Vector3f.mul_scalar v 1) at 1
    by (destruct v; unfold Vector3f.mul_scalar; cbn; f_equal; ring).
  replace (Vector3f.mk (- Vector3f.x v) (- Vector3f.y v) (- Vector3f.z v))
    with (Vector3f.mul_scalar v (- 1))
    by (unfold Vector3f.mul_scalar; f_equal; ring).
  rewrite exp_spec_scale_add. apply exp_spec_null.
  unfold Vector3f.squaredNorm, Vector3f.mul_scalar. cbn. ring.
Qed.

(** ** The cross-product matrix and the packing *)

(** X5. [hat a] is the skew-symmetric matrix of the cross product by [a]:
    [hat a * b = a x b], the transpose of [hat a] is its opposite, and
    [hat a * a = 0]. *)
Theorem hat_skew_cross (a b : Vector3f.t) :
  Vector3f.of_mul (hat a) b = cross a b /\
  (forall i j, MatrixXf.transpose (hat a) i j = MatrixXf.opp (hat a) i j) /\
  Vector3f.of_mul (hat a) a = Vector3f.mk 0 0 0.
Proof.
  split; [| split].
  - unfold cross. unfold_blocks. f_equal; ring.
  - intros i j. unfold MatrixXf.transpose.
    destruct i as [| [| [| i]]]; destruct j as [| [| [| j]]];
      unfold_blocks; try ring;
      try (destruct i; unfold_blocks; try ring);
      try (destruct j; unfold_blocks; ring).
  - unfold_blocks. f_equal; ring.
Qed.

(** X6. [toVec] loses nothing: two poses have the same seven packed
    coefficients exactly when position and quaternion coincide, so that
    the residual of [observe] vanishes only on the predicted pose. *)
Theorem toVec_injective (p p' : Vector3f.t) (q q' : Quaternionf.t) :
  (forall i, (i < 7)%nat -> VectorXf.sub (toVec p q) (toVec p' q') i = 0) <->
  p = p' /\ q = q'.
Proof.
  split.
  - intros H. unfold VectorXf.sub in H.
    pose proof (H 0%nat ltac:(lia)) as H0. pose proof (H 1%nat ltac:(lia)) as H1.
    pose proof (H 2%nat ltac:(lia)) as H2. pose proof (H 3%nat ltac:(lia)) as H3.
    pose proof (H 4%nat ltac:(lia)) as H4. pose proof (H 5%nat ltac:(lia)) as H5.
    pose proof (H 6%nat ltac:(lia)) as H6.
    destruct p, p', q, q'. cbn in *. split; f_equal; lra.
  - intros [-> ->] i _. unfold VectorXf.sub. ring.
Qed.

(** ** Rotation matrices *)

(** The rows of the rotation matrix of a unit quaternion are orthonormal. *)
Lemma toRotationMatrix_gram (q : Quaternionf.t) (i j : nat) :
  Quaternionf.squaredNorm q = 1 -> (i < 3)%nat -> (j < 3)%nat ->
  MatrixXf.mul 3 (Quaternionf.toRotationMatrix q)
    (MatrixXf.transpose (Quaternionf.toRotationMatrix q)) i j =
  MatrixXf.Identity i j.
Proof.
  intros HN Hi Hj. destruct q as [w x y z].
  unfold Quaternionf.squaredNorm in HN. cbn in HN.
  destruct i as [| [| [| i]]]; try lia; destruct j as [| [| [| j]]]; try lia;
    cbv beta iota zeta delta
      [MatrixXf.mul MatrixXf.sum MatrixXf.transpose MatrixXf.Identity Nat.eqb
       Quaternionf.toRotationMatrix
       Quaternionf.w Quaternionf.x Quaternionf.y Quaternionf.z];
    apply Rminus_diag_uniq;
    first
      [ transitivity (4 * (1 - (x * x + y * y + z * z + w * w)) * - (y * y + z * z));
        [ring | rewrite HN; ring]
      | transitivity (4 * (1 - (x * x + y * y + z * z + w * w)) * - (x * x + z * z));
        [ring | rewrite HN; ring]
      | transitivity (4 * (1 - (x * x + y * y + z * z + w * w)) * - (x * x + y * y));
        [ring | rewrite HN; ring]
      | transitivity (4 * (1 - (x * x + y * y + z * z + w * w)) * (x * y));
        [ring | rewrite HN; ring]
      | transitivity (4 * (1 - (x * x + y * y + z * z + w * w)) * (x * z));
        [ring | rewrite HN; ring]
      | transitivity (4 * (1 - (x * x + y * y + z * z + w * w)) * (y * z));
        [ring | rewrite HN; ring] ].
Qed.

(** X7. The rotation matrix of a unit quaternion is orthogonal:
    [R * R^T] is the 3x3 identity. *)
Theorem toRotationMatrix_orthogonal (q : Quaternionf.t) :
  Quaternionf.squaredNorm q = 1 ->
  MatrixXf.eq_on 3 3
    (MatrixXf.mul 3 (Quaternionf.toRotationMatrix q)
       (MatrixXf.transpose (Quaternionf.toRotationMatrix q)))
    MatrixXf.Identity.
Proof.
  intros HN i j Hi Hj. apply toRotationMatrix_gram; assumption.
Qed.

(** X8. For a unit orientation, the 3x3 block [B] of the pose returned by
    [getState] satisfies [B * B^T = scale^2 * I]: the pose is a similarity
    of ratio [scale]. *)
Theorem getState_similarity (s : EKF) :
  Quaternionf.squaredNorm (qua s) = 1 ->
  MatrixXf.eq_on 3 3
    (MatrixXf.mul 3 (MatrixXf.block (fst (getState s)) 0 0)
       (MatrixXf.transpose (MatrixXf.block (fst (getState s)) 0 0)))
    (MatrixXf.scalar_mul (scale s * scale s) MatrixXf.Identity).
Proof.
  intros HN i j Hi Hj.
  pose proof (toRotationMatrix_gram (qua s) i j HN Hi Hj) as HG.
  unfold MatrixXf.scalar_mul. rewrite <- HG.
  unfold getState. cbn [fst].
  destruct i as [| [| [| i]]]; try lia; destruct j as [| [| [| j]]]; try lia;
    cbv beta iota zeta delta
      [MatrixXf.mul MatrixXf.sum MatrixXf.transpose MatrixXf.block MatrixXf.setBlock
       MatrixXf.scalar_mul Vector3f.as_matrix
       Nat.leb Nat.ltb Nat.eqb Nat.sub Nat.add andb];
    ring.
Qed.

(** [sqrt] of the square of twice a number, by the sign of the number. *)
Lemma sqrt_double_square_pos (c : R) : 0 < c -> sqrt (2 * c * (2 * c)) = 2 * c.
Proof. intros Hc. apply sqrt_square. lra. Qed.

Lemma sqrt_double_square_neg (c : R) : c < 0 -> sqrt (2 * c * (2 * c)) = - (2 * c).
Proof.
  intros Hc. replace (2 * c * (2 * c)) with (- (2 * c) * - (2 * c)) by ring.
  apply sqrt_square. lra.
Qed.

(** The conversion of the rotation matrix of a unit quaternion gives the
    quaternion back, up to its sign. *)
Lemma fromRotationMatrix_toRotationMatrix (q : Quaternionf.t) :
  Quaternionf.squaredNorm q = 1 ->
  Quaternionf.fromRotationMatrix (Quaternionf.toRotationMatrix q) = Some q \/
  Quaternionf.fromRotationMatrix (Quaternionf.toRotationMatrix q) =
    Some (Quaternionf.mk (- Quaternionf.w q) (- Quaternionf.x q)
                         (- Quaternionf.y q) (- Quaternionf.z q)).
Proof.
  intros HN. destruct q as [w x y z].
  unfold Quaternionf.squaredNorm in HN. cbn in HN.
  pose proof half_literal as Hhalf.
  set (mat := Quaternionf.toRotationMatrix (Quaternionf.mk w x y z)).
  unfold Quaternionf.fromRotationMatrix. cbv zeta.
  let finish := fun c =>
    (match goal with
     | |- context [fsqrt ?a] => replace a with (2 * c * (2 * c)) by nra
     end;
     rewrite fsqrt_some by nra;
     destruct (Rtotal_order c 0) as [Hneg | [Hzero | Hpos]]; [| nra |];
     [ rewrite sqrt_double_square_neg by exact Hneg
     | rewrite sqrt_double_square_pos by exact Hpos ];
     cbn [bind]; rewrite fdiv_some by lra; cbn [bind]; [right | left];
     cbn; rewrite Hhalf; f_equal; f_equal; field; lra) in
  destruct (Rlt_dec 0 (mat 0%nat 0%nat + mat 1%nat 1%nat + mat 2%nat 2%nat))
    as [Htr | Htr];
  [ | destruct (Rlt_dec (mat 0%nat 0%nat) (mat 1%nat 1%nat)) as [H01 | H01];
      [ destruct (Rlt_dec (mat 1%nat 1%nat) (mat 2%nat 2%nat)) as [H2 | H2]
      | destruct (Rlt_dec (mat 0%nat 0%nat) (mat 2%nat 2%nat)) as [H2 | H2] ] ];
  cbn [Nat.modulo Nat.divmod Nat.add fst snd Nat.sub];
  subst mat;
  cbv beta iota zeta delta
    [Quaternionf.toRotationMatrix
     Quaternionf.w Quaternionf.x Quaternionf.y Quaternionf.z] in *;
  first [ finish w | finish x | finish y | finish z ].
Qed.

Lemma Quaternionf_normalized_of_unit (q : Quaternionf.t) :
  Quaternionf.squaredNorm q = 1 -> Quaternionf.normalized q = Some q.
Proof.
  intros HN. unfold Quaternionf.normalized. cbv zeta. rewrite HN.
  destruct (Rlt_dec 0 1) as [_ | N]; [| lra].
  rewrite fsqrt_some by lra. rewrite sqrt_1. cbn [bind].
  rewrite !fdiv_some by lra. cbn [bind]. destruct q as [w x y z]. cbn.
  f_equal. f_equal; field.
Qed.

(** The conversion reads the top-left 3x3 coefficients only. *)
Lemma fromRotationMatrix_ext (M M' : MatrixXf.t) :
  MatrixXf.eq_on 3 3 M M' ->
  Quaternionf.fromRotationMatrix M = Quaternionf.fromRotationMatrix M'.
Proof.
  intros H.
  assert (E : forall i j, (i < 3)%nat -> (j < 3)%nat -> M i j = M' i j) by exact H.
  pose proof (E 0 0 ltac:(lia) ltac:(lia))%nat as H00.
  pose proof (E 0 1 ltac:(lia) ltac:(lia))%nat as H01.
  pose proof (E 0 2 ltac:(lia) ltac:(lia))%nat as H02.
  pose proof (E 1 0 ltac:(lia) ltac:(lia))%nat as H10.
  pose proof (E 1 1 ltac:(lia) ltac:(lia))%nat as H11.
  pose proof (E 1 2 ltac:(lia) ltac:(lia))%nat as H12.
  pose proof (E 2 0 ltac:(lia) ltac:(lia))%nat as H20.
  pose proof (E 2 1 ltac:(lia) ltac:(lia))%nat as H21.
  pose proof (E 2 2 ltac:(lia) ltac:(lia))%nat as H22.
  unfold Quaternionf.fromRotationMatrix. cbv zeta.
  rewrite H00, H11, H22.
  destruct (Rlt_dec 0 (M' 0%nat 0%nat + M' 1%nat 1%nat + M' 2%nat 2%nat)) as [Htr | Htr].
  - rewrite H01, H02, H10, H12, H20, H21. reflexivity.
  - destruct (Rlt_dec (M' 0%nat 0%nat) (M' 1%nat 1%nat)) as [Ha | Ha];
      rewrite ?H00, ?H11, ?H22;
      [ destruct (Rlt_dec (M' 1%nat 1%nat) (M' 2%nat 2%nat)) as [Hb | Hb]
      | destruct (Rlt_dec (M' 0%nat 0%nat) (M' 2%nat 2%nat)) as [Hb | Hb] ];
      cbn [Nat.modulo Nat.divmod Nat.add fst snd Nat.sub];
      rewrite ?H00, ?H01, ?H02, ?H10, ?H11, ?H12, ?H20, ?H21, ?H22; reflexivity.
Qed.

Lemma toRotationMatrix_opp (q : Quaternionf.t) (i j : nat) :
  Quaternionf.toRotationMatrix
    (Quaternionf.mk (- Quaternionf.w q) (- Quaternionf.x q)
                    (- Quaternionf.y q) (- Quaternionf.z q)) i j =
  Quaternionf.toRotationMatrix q i j.
Proof.
  destruct q as [w x y z].
  destruct i as [| [| [| i]]]; destruct j as [| [| [| j]]];
    cbv beta iota zeta delta
      [Quaternionf.toRotationMatrix
       Quaternionf.w Quaternionf.x Quaternionf.y Quaternionf.z];
    ring.
Qed.

(** X9. Round trip through the rotation matrix: converting the rotation
    matrix of a unit quaternion back gives the quaternion or its opposite,
    which stands for the same rotation. *)
Theorem rotation_matrix_round_trip (q : Quaternionf.t) :
  Quaternionf.squaredNorm q = 1 ->
  exists q',
    Quaternionf.fromRotationMatrix (Quaternionf.toRotationMatrix q) = Some q' /\
    (q' = q \/
     q' = Quaternionf.mk (- Quaternionf.w q) (- Quaternionf.x q)
                         (- Quaternionf.y q) (- Quaternionf.z q)) /\
    forall i j, Quaternionf.toRotationMatrix q' i j = Quaternionf.toRotationMatrix q i j.
Proof.
  intros HN.
  destruct (fromRotationMatrix_toRotationMatrix q HN) as [E | E];
    eexists; (split; [exact E |]); split; auto.
  intros i j. apply toRotationMatrix_opp.
Qed.

(** ** More on initialization *)

(** X10. [init] completes on every pose and velocity.  It takes the
    position from the last column of the pose and the velocity as given,
    sets a unit orientation and [P = 0.5 * I], and leaves the scale, the
    recorded timestamp and the constants as they are. *)
Theorem init_resets_estimate (s : EKF) (T : MatrixXf.t) (v : Vector3f.t) :
  exists s',
    init s T v = Some s' /\
    pos s' = Vector3f.mk (T 0%nat 3%nat) (T 1%nat 3%nat) (T 2%nat 3%nat) /\
    vel s' = v /\
    Quaternionf.norm (qua s') = Some 1 /\
    (forall i j, P s' i j = if Nat.eqb i j then / 2 else 0) /\
    scale s' = scale s /\ last_ns s' = last_ns s /\
    gravity s' = gravity s /\ LQL s' = LQL s /\ W s' = W s.
Proof.
  unfold init. cbv zeta.
  destruct (Quaternionf_fromRotationMatrix_total (MatrixXf.block T 0 0))
    as (q & Hq & Hpos).
  rewrite Hq. cbn [bind].
  destruct (Quaternionf_normalized_unit q Hpos) as (q' & Hq' & Hunit).
  rewrite Hq'. cbn [bind]. eexists. split; [reflexivity |].
  cbn [pos vel qua P scale last_ns gravity LQL W].
  split; [reflexivity |]. split; [reflexivity |].
  split; [apply Quaternionf_norm_unit, Hunit |].
  split; [| repeat split].
  intros i j. unfold MatrixXf.scalar_mul, MatrixXf.Identity.
  destruct (Nat.eqb i j); lra.
Qed.

(** X11. Reading the pose with [getState] and initializing a filter from
    it is a round trip: for a unit orientation and a scale of 1, [init] on
    the pose of [getState] restores the position and the orientation, up
    to the sign of the quaternion. *)
Theorem init_getState_round_trip (s s0 : EKF) (v : Vector3f.t) :
  Quaternionf.squaredNorm (qua s) = 1 -> scale s = 1 ->
  exists s',
    init s0 (fst (getState s)) v = Some s' /\
    pos s' = pos s /\
    (qua s' = qua s \/
     qua s' = Quaternionf.mk (- Quaternionf.w (qua s)) (- Quaternionf.x (qua s))
                             (- Quaternionf.y (qua s)) (- Quaternionf.z (qua s))) /\
    forall i j,
      Quaternionf.toRotationMatrix (qua s') i j =
      Quaternionf.toRotationMatrix (qua s) i j.
Proof.
  intros HN Hscale.
  assert (Hblock : MatrixXf.eq_on 3 3 (MatrixXf.block (fst (getState s)) 0 0)
                     (Quaternionf.toRotationMatrix (qua s))).
  { intros i j Hi Hj. unfold getState. cbn [fst]. rewrite Hscale.
    destruct i as [| [| [| i]]]; try lia; destruct j as [| [| [| j]]]; try lia;
      cbv beta iota zeta delta
        [MatrixXf.block MatrixXf.setBlock MatrixXf.scalar_mul Vector3f.as_matrix
         Nat.leb Nat.ltb Nat.eqb Nat.sub Nat.add andb];
      ring. }
  unfold init. cbv zeta. rewrite (fromRotationMatrix_ext _ _ Hblock).
  assert (Hpos : Vector3f.of_column (fst (getState s)) 0 3 = pos s).
  { unfold getState. cbn [fst]. destruct (pos s) as [px py pz]. reflexivity. }
  rewrite Hpos.
  destruct (fromRotationMatrix_toRotationMatrix (qua s) HN) as [E | E];
    rewrite E; cbn [bind].
  - rewrite Quaternionf_normalized_of_unit by exact HN. cbn [bind].
    eexists. split; [reflexivity |]. cbn [pos qua]. auto.
  - rewrite Quaternionf_normalized_of_unit
      by (rewrite <- HN; unfold Quaternionf.squaredNorm; cbn; ring).
    cbn [bind]. eexists. split; [reflexivity |]. cbn [pos qua].
    split; [reflexivity |]. split; [right; reflexivity |].
    intros i j. apply toRotationMatrix_opp.
Qed.

(** ** Sums *)

Lemma sum_ext (n : nat) (f g : nat -> R) :
  (forall k, (k < n)%nat -> f k = g k) -> MatrixXf.sum n f = MatrixXf.sum n g.
Proof.
  induction n as [| n IH]; intros H; cbn [MatrixXf.sum]; [reflexivity |].
  rewrite IH by (intros k Hk; apply H; lia). rewrite (H n) by lia. reflexivity.
Qed.

Lemma sum_mul_r (n : nat) (f : nat -> R) (c : R) :
  MatrixXf.sum n f * c = MatrixXf.sum n (fun k => f k * c).
Proof.
  induction n as [| n IH]; cbn [MatrixXf.sum]; [ring |].
  rewrite <- IH. ring.
Qed.

Lemma sum_plus (n : nat) (f g : nat -> R) :
  MatrixXf.sum n (fun k => f k + g k) = MatrixXf.sum n f + MatrixXf.sum n g.
Proof.
  induction n as [| n IH]; cbn [MatrixXf.sum]; [ring |].
  rewrite IH. ring.
Qed.

Lemma sum_null (n : nat) (f : nat -> R) :
  (forall k, (k < n)%nat -> f k = 0) -> MatrixXf.sum n f = 0.
Proof.
  induction n as [| n IH]; intros H; cbn [MatrixXf.sum]; [reflexivity |].
  rewrite IH by (intros k Hk; apply H; lia). rewrite (H n) by lia. ring.
Qed.

Lemma sum_swap (n m : nat) (g : nat -> nat -> R) :
  MatrixXf.sum n (fun k => MatrixXf.sum m (fun l => g k l)) =
  MatrixXf.sum m (fun l => MatrixXf.sum n (fun k => g k l)).
Proof.
  induction n as [| n IH]; cbn [MatrixXf.sum].
  - symmetry. apply sum_null. reflexivity.
  - rewrite IH, <- sum_plus. reflexivity.
Qed.

(** [F * P * F^T] is symmetric when [P] is. *)
Lemma congruence_symmetric (n : nat) (F Q : MatrixXf.t) (i j : nat) :
  MatrixXf.eq_on n n Q (MatrixXf.transpose Q) ->
  MatrixXf.mul n (MatrixXf.mul n F Q) (MatrixXf.transpose F) i j =
  MatrixXf.mul n (MatrixXf.mul n F Q) (MatrixXf.transpose F) j i.
Proof.
  intros HQ. unfold MatrixXf.mul, MatrixXf.transpose.
  transitivity
    (MatrixXf.sum n (fun k => MatrixXf.sum n (fun l => F i l * Q l k * F j k))).
  { apply sum_ext; intros k _. apply sum_mul_r. }
  rewrite sum_swap.
  apply sum_ext; intros l Hl. rewrite sum_mul_r.
  apply sum_ext; intros k Hk.
  rewrite (HQ l k Hl Hk). unfold MatrixXf.transpose. ring.
Qed.

(** ** More on prediction *)

(** X12. [predict] keeps the covariance symmetric: when [P] and [LQL] are
    symmetric 9x9 matrices, so is the new [P]. *)
Theorem predict_keeps_symmetry (s : EKF) (acc gyro : Vector3f.t) (ns : Z) :
  MatrixXf.eq_on 9 9 (P s) (MatrixXf.transpose (P s)) ->
  MatrixXf.eq_on 9 9 (LQL s) (MatrixXf.transpose (LQL s)) ->
  exists s',
    predict s acc gyro ns = Some s' /\
    MatrixXf.eq_on 9 9 (P s') (MatrixXf.transpose (P s')).
Proof.
  intros HP HL. destruct (isUpadatable s) eqn:Hup.
  - eexists. split; [apply (predict_updatable s acc gyro ns Hup) |].
    cbv zeta. cbn [P]. intros i j Hi Hj.
    match goal with
    | |- ?A i j = MatrixXf.transpose ?A i j => change (A i j = A j i)
    end.
    unfold MatrixXf.add, MatrixXf.mul_scalar.
    rewrite (congruence_symmetric 9 _ (P s) i j HP).
    rewrite (HL i j Hi Hj). reflexivity.
  - exists (set_last_ns s ns). unfold predict. rewrite Hup. split; [reflexivity | exact HP].
Qed.

(** X13. Whatever the two timestamps, the elapsed time [predict] works
    with is never negative and stays below [2^64 * 1e-9] seconds. *)
Theorem dt_of_bounds (ns last : Z) :
  0 <= dt_of ns last <= 18446744073709551615 * 1e-9.
Proof.
  unfold dt_of, float_of_u64, u64_sub.
  pose proof (Z.mod_pos_bound (ns - last) (2 ^ 64) ltac:(lia)) as [Hlo Hhi].
  apply IZR_le in Hlo.
  assert (Hhi' : (((ns - last) mod 2 ^ 64) <= 18446744073709551615)%Z) by lia.
  apply IZR_le in Hhi'. lra.
Qed.

Lemma dt_of_in_order (ns last : Z) :
  (0 <= last <= ns)%Z -> (ns < 2 ^ 64)%Z -> dt_of ns last = IZR (ns - last) * 1e-9.
Proof.
  intros Hord Hmax. unfold dt_of, float_of_u64, u64_sub.
  rewrite Z.mod_small by lia. reflexivity.
Qed.

(** X14. With a constant angular rate and timestamps in order, the
    orientation does not depend on how the interval is split: two
    [predict]s, at [ns1] and then at [ns2], leave the orientation that a
    single [predict] at [ns2] gives. *)
Theorem predict_orientation_split
    (s : EKF) (acc1 acc2 acc gyro : Vector3f.t) (ns1 ns2 : Z) :
  isUpadatable s = true ->
  (0 <= last_ns s <= ns1)%Z -> (ns1 <= ns2 < 2 ^ 64)%Z ->
  exists s1,
    predict s acc1 gyro ns1 = Some s1 /\
    (isUpadatable s1 = true ->
     exists s2 s2',
       predict s1 acc2 gyro ns2 = Some s2 /\
       predict s acc gyro ns2 = Some s2' /\
       qua s2 = qua s2').
Proof.
  intros Hup H1 H2.
  eexists. split; [apply (predict_updatable s acc1 gyro ns1 Hup) |].
  cbv zeta. intros Hup1.
  eexists. eexists.
  split; [apply (predict_updatable _ acc2 gyro ns2 Hup1) |].
  split; [apply (predict_updatable s acc gyro ns2 Hup) |].
  cbv zeta. cbn [qua last_ns].
  rewrite Quaternionf_mul_assoc, exp_spec_scale_add.
  assert (Hdt : dt_of ns1 (last_ns s) + dt_of ns2 ns1 = dt_of ns2 (last_ns s)).
  { rewrite !dt_of_in_order by lia.
    rewrite <- Rmult_plus_distr_r, <- plus_IZR.
    replace (ns1 - last_ns s + (ns2 - ns1))%Z with (ns2 - last_ns s)%Z by lia.
    reflexivity. }
  rewrite Hdt. reflexivity.
Qed.

(** One [predict] on a filter at rest whose specific force cancels
    gravity. *)
Lemma predict_at_rest (s : EKF) (acc : Vector3f.t) (ns : Z) :
  vel s = Vector3f.mk 0 0 0 ->
  Vector3f.of_mul (Quaternionf.toRotationMatrix (qua s)) acc = gravity s ->
  exists s',
    predict s acc (Vector3f.mk 0 0 0) ns = Some s' /\
    pos s' = pos s /\ vel s' = vel s /\ qua s' = qua s /\ gravity s' = gravity s.
Proof.
  intros Hv Ha. destruct (isUpadatable s) eqn:Hup.
  - eexists. split; [apply (predict_updatable s acc _ ns Hup) |].
    cbv zeta. cbn [pos vel qua gravity]. rewrite Ha, Hv.
    rewrite exp_spec_null
      by (unfold Vector3f.squaredNorm, Vector3f.mul_scalar; cbn; ring).
    rewrite Quaternionf_mul_identity.
    destruct (pos s) as [px py pz]. destruct (gravity s) as [gx gy gz].
    unfold Vector3f.add, Vector3f.sub, Vector3f.mul_scalar, Vector3f.scalar_mul.
    cbn. repeat split; f_equal; ring.
  - exists (set_last_ns s ns). unfold predict. rewrite Hup. cbn. auto.
Qed.

(** X15. A filter at rest stays at rest: from zero velocity, any number of
    [predict]s with no angular rate and a specific force that cancels
    gravity ([R * acc = gravity]) leaves position, velocity and
    orientation unchanged, whatever the timestamps. *)
Theorem run_stationary (s : EKF) (cs : list Call) :
  vel s = Vector3f.mk 0 0 0 ->
  Forall (fun c => exists acc ns,
            c = CallPredict acc (Vector3f.mk 0 0 0) ns /\
            Vector3f.of_mul (Quaternionf.toRotationMatrix (qua s)) acc = gravity s)
         cs ->
  exists s',
    run s cs = Some s' /\ pos s' = pos s /\ vel s' = vel s /\ qua s' = qua s.
Proof.
  revert s. induction cs as [| c cs IH]; intros s Hv Hcs.
  - exists s. auto.
  - inversion Hcs as [| c' cs' (acc & ns & -> & Ha) Hrest]; subst.
    cbn [run step].
    destruct (predict_at_rest s acc ns Hv Ha) as (s1 & Hs1 & Hp & Hv1 & Hq & Hg).
    rewrite Hs1. cbn [bind].
    destruct (IH s1) as (s' & Hrun & Hp' & Hv' & Hq').
    + now rewrite Hv1.
    + rewrite Hq, Hg. exact Hrest.
    + exists s'. split; [exact Hrun |]. split; [congruence |]. split; congruence.
Qed.

(** ** More on observation *)


(** ** Call sequences *)

(** What one call leaves alone, and what it records. *)
Lemma step_frame (s : EKF) (c : Call) :
  exists s',
    step s c = Some s' /\
    gravity s' = gravity s /\ LQL s' = LQL s /\ W s' = W s /\
    last_ns s' = match c with CallPredict _ _ ns => ns | _ => last_ns s end /\
    scale s' = match c with CallObserve T _ => getScale T | _ => scale s end.
Proof.
  destruct c as [T v | acc omega ns | T ns]; cbn [step].
  - unfold init. cbv zeta.
    destruct (Quaternionf_fromRotationMatrix_total (MatrixXf.block T 0 0))
      as (q & Hq & Hpos).
    rewrite Hq. cbn [bind].
    destruct (Quaternionf_normalized_unit q Hpos) as (q' & Hq' & _).
    rewrite Hq'. cbn [bind]. eexists. split; [reflexivity |]. cbn. auto 10.
  - destruct (isUpadatable s) eqn:Hup.
    + eexists. split; [apply (predict_updatable s acc omega ns Hup) |]. cbn. auto 10.
    + exists (set_last_ns s ns). unfold predict. rewrite Hup. cbn. auto 10.
  - destruct (observe_total s T ns) as (q & _ & Hobs).
    eexists. split; [exact Hobs |]. cbn. auto 10.
Qed.

Lemma run_frame (cs : list Call) :
  forall s,
    exists s',
      run s cs = Some s' /\
      gravity s' = gravity s /\ LQL s' = LQL s /\ W s' = W s /\
      last_ns s' = last_predict_ns cs (last_ns s) /\
      scale s' = last_observed_scale getScale cs (scale s).
Proof.
  induction cs as [| c cs IH]; intros s.
  - exists s. cbn. auto 10.
  - cbn [run].
    destruct (step_frame s c) as (s1 & Hs1 & Hg & HL & HW & Hns & Hsc).
    rewrite Hs1. cbn [bind].
    destruct (IH s1) as (s' & Hrun & Hg' & HL' & HW' & Hns' & Hsc').
    exists s'. split; [exact Hrun |].
    unfold last_predict_ns, last_observed_scale in *. cbn [fold_left].
    rewrite Hg', HL', HW', Hns', Hsc', Hg, HL, HW, Hns, Hsc.
    destruct c; auto 10.
Qed.

(** *** Calls with the inverse tracked *)








(** X18. After any sequence of calls, [last_ns] is the timestamp of the
    latest [predict] (open gate or not) and [scale] is the scale of the
    pose of the latest [observe]; [init] and [observe] never touch
    [last_ns], [init] and [predict] never touch [scale]. *)
Theorem run_bookkeeping (s : EKF) (cs : list Call) :
  exists s',
    run s cs = Some s' /\
    last_ns s' = last_predict_ns cs (last_ns s) /\
    scale s' = last_observed_scale getScale cs (scale s).
Proof.
  destruct (run_frame cs s) as (s' & Hrun & _ & _ & _ & Hns & Hsc).
  exists s'. auto.
Qed.

End Methods.

(** ** Worked examples

    The sample filter is at rest at the origin with the identity
    orientation, gravity (0, 0, 1) and [last_ns = 2]; the sample inputs
    are the specific force (0, 1, 0) and the angular rate (pi, 0, 0). *)

(** One second after the recorded timestamp. *)
Lemma dt_of_one_second : dt_of 1000000002 2 = 1.
Proof.
  unfold dt_of, float_of_u64.
  replace (u64_sub 1000000002 2) with 1000000000%Z by reflexivity. lra.
Qed.

(** One nanosecond before the recorded timestamp. *)
Lemma dt_of_one_nanosecond_back : dt_of 1 2 = 18446744073709551615 * 1e-9.
Proof.
  unfold dt_of, float_of_u64.
  replace (u64_sub 1 2) with 18446744073709551615%Z by reflexivity. reflexivity.
Qed.

(** Half a turn about the x axis. *)
Lemma exp_spec_half_turn :
  exp_spec (Vector3f.mul_scalar sample_gyro 1) = Quaternionf.mk 0 1 0 0.
Proof.
  unfold exp_spec.
  replace (Vector3f.squaredNorm (Vector3f.mul_scalar sample_gyro 1)) with (PI * PI)
    by (unfold Vector3f.squaredNorm, Vector3f.mul_scalar, sample_gyro; cbn; ring).
  pose proof PI_RGT_0 as Hpi.
  rewrite sqrt_square by lra.
  destruct (Req_dec_T PI 0) as [E | N]; [lra |].
  rewrite cos_PI2, sin_PI2. unfold Vector3f.mul_scalar, sample_gyro. cbn.
  f_equal; field; exact N.
Qed.

(** C2 fails as stated: on the sample filter, half a turn about x in one
    second, the coefficient (3, 8) of the new covariance is 1/2, while the
    Jacobian taken at the orientation held at the start of the call would
    give -1/2. *)
Lemma predict_covariance_start_orientation_counterexample :
  exists s',
    predict always_updatable sample_state sample_acc sample_gyro 1000000002 = Some s' /\
    let dt := dt_of 1000000002 (last_ns sample_state) in
    let F0 := F_spec (Quaternionf.toRotationMatrix (qua sample_state)) sample_acc dt in
    (P s')@(3, 8) = / 2 /\
    (MatrixXf.add
       (MatrixXf.mul 9 (MatrixXf.mul 9 F0 (P sample_state)) (MatrixXf.transpose F0))
       (MatrixXf.mul_scalar (LQL sample_state) dt))@(3, 8) = - / 2 /\
    (P s')@(3, 8) <>
    (MatrixXf.add
       (MatrixXf.mul 9 (MatrixXf.mul 9 F0 (P sample_state)) (MatrixXf.transpose F0))
       (MatrixXf.mul_scalar (LQL sample_state) dt))@(3, 8).
Proof.
  eexists. split.
  { apply (predict_updatable always_updatable sample_state sample_acc sample_gyro
             1000000002 eq_refl). }
  cbv zeta. cbn [P last_ns sample_state qua].
  rewrite dt_of_one_second, exp_spec_half_turn.
  match goal with
  | |- ?a = / 2 /\ ?b = - / 2 /\ _ =>
      assert (H1 : a = / 2) by (evaluate_covariance; lra);
      assert (H2 : b = - / 2) by (evaluate_covariance; lra)
  end.
  split; [exact H1 |]. split; [exact H2 |]. rewrite H1, H2. lra.
Qed.

(** C2 as the code has it, on the sample filter: the orientation becomes
    the half turn (0, 1, 0, 0) and the coefficient (3, 8) of the new
    covariance is 1/2. *)
Lemma predict_covariance_update_witness :
  always_updatable sample_state = true /\
  exists s',
    predict always_updatable sample_state sample_acc sample_gyro 1000000002 = Some s' /\
    qua s' = Quaternionf.mk 0 1 0 0 /\
    (P s')@(3, 8) = / 2.
Proof.
  split; [reflexivity |].
  pose proof (predict_covariance_update always_updatable sample_state sample_acc
                sample_gyro 1000000002 eq_refl) as H.
  cbv zeta in H. destruct H as (s' & dq & Hs & Hdq & Hq & HP).
  rewrite exp_refines_spec in Hdq. injection Hdq as <-.
  cbn [last_ns sample_state] in Hq, HP.
  rewrite dt_of_one_second, exp_spec_half_turn in Hq, HP.
  exists s'. split; [exact Hs |]. split.
  - rewrite Hq. evaluate_vectors. f_equal; ring.
  - rewrite HP. evaluate_covariance. lra.
Defined.

(** C4 on the sample filter, one second later: the position becomes
    (0, 1/2, -1/2), the velocity (0, 1, -1) and the orientation the half
    turn (0, 1, 0, 0). *)
Lemma predict_state_update_witness :
  always_updatable sample_state = true /\
  exists s',
    predict always_updatable sample_state sample_acc sample_gyro 1000000002 = Some s' /\
    pos s' = Vector3f.mk 0 (/ 2) (- / 2) /\
    vel s' = Vector3f.mk 0 1 (- 1) /\
    qua s' = Quaternionf.mk 0 1 0 0 /\
    last_ns s' = 1000000002%Z.
Proof.
  split; [reflexivity |].
  pose proof (predict_state_update always_updatable sample_state sample_acc
                sample_gyro 1000000002 eq_refl) as H.
  cbv zeta in H. destruct H as (s' & dq & Hs & Hdq & Hp & Hv & Hq & Hl & _).
  rewrite exp_refines_spec in Hdq. injection Hdq as <-.
  cbn [last_ns sample_state] in Hp, Hv, Hq.
  rewrite dt_of_one_second in Hp, Hv, Hq. rewrite exp_spec_half_turn in Hq.
  exists s'. split; [exact Hs |]. repeat split.
  - rewrite Hp. evaluate_vectors. f_equal; lra.
  - rewrite Hv. evaluate_vectors. f_equal; lra.
  - rewrite Hq. evaluate_vectors. f_equal; ring.
  - exact Hl.
Defined.

(** C6 on the sample filter, with a gate that never opens. *)
Lemma predict_not_updatable_witness :
  never_updatable sample_state = false /\
  exists s',
    predict never_updatable sample_state sample_acc sample_gyro 7 = Some s' /\
    last_ns s' = 7%Z /\
    pos s' = pos sample_state /\ vel s' = vel sample_state /\
    qua s' = qua sample_state /\ scale s' = scale sample_state /\
    P s' = P sample_state.
Proof.
  split; [reflexivity |].
  destruct (predict_not_updatable never_updatable sample_state sample_acc sample_gyro 7
              eq_refl) as (s' & Hs & Hl & Hp & Hv & Hq & Hsc & HP & _).
  exists s'. auto 10.
Defined.

(** C4 fails as stated on an out-of-order timestamp: on the sample filter
    ([last_ns = 2]) and a sample stamped 1 ns, the velocity is not the one
    obtained with [dt = (1 - 2) * 1e-9]. *)
Lemma predict_signed_dt_counterexample :
  always_updatable sample_state = true /\
  exists s',
    predict always_updatable sample_state sample_acc sample_gyro 1 = Some s' /\
    let dt := IZR (1 - last_ns sample_state) * 1e-9 in
    let a_world :=
      Vector3f.sub
        (Vector3f.of_mul (Quaternionf.toRotationMatrix (qua sample_state)) sample_acc)
        (gravity sample_state) in
    Vector3f.y (vel s') = 18446744073709551615 * 1e-9 /\
    Vector3f.y (Vector3f.add (vel sample_state) (Vector3f.mul_scalar a_world dt))
      = - 1e-9 /\
    vel s' <> Vector3f.add (vel sample_state) (Vector3f.mul_scalar a_world dt).
Proof.
  split; [reflexivity |].
  eexists. split.
  { apply (predict_updatable always_updatable sample_state sample_acc sample_gyro 1
             eq_refl). }
  cbv zeta. cbn [vel last_ns sample_state]. rewrite dt_of_one_nanosecond_back.
  replace (1 - 2)%Z with (-1)%Z by reflexivity.
  split; [evaluate_vectors; lra |]. split; [evaluate_vectors; lra |].
  intros E. apply (f_equal Vector3f.y) in E. revert E. evaluate_vectors. lra.
Qed.

(** C7 fails as stated: on the sample filter ([last_ns = 2]) a sample
    stamped 1 ns gives a [dt] that is not negative, and the velocity moves
    along [a_world], not against it. *)
Lemma predict_negative_dt_counterexample :
  always_updatable sample_state = true /\
  (1 < last_ns sample_state)%Z /\
  ~ dt_of 1 (last_ns sample_state) < 0 /\
  exists s',
    predict always_updatable sample_state sample_acc sample_gyro 1 = Some s' /\
    0 < Vector3f.y (vel s').
Proof.
  split; [reflexivity |]. split; [reflexivity |].
  cbn [last_ns sample_state]. split.
  - rewrite dt_of_one_nanosecond_back. lra.
  - eexists. split.
    { apply (predict_updatable always_updatable sample_state sample_acc sample_gyro 1
               eq_refl). }
    cbv zeta. cbn [vel last_ns sample_state]. rewrite dt_of_one_nanosecond_back.
    evaluate_vectors. lra.
Qed.

(** C7 as the code has it, on the same call: [dt] is
    [(2^64 - 1) * 1e-9]. *)
Lemma predict_out_of_order_dt_witness :
  always_updatable sample_state = true /\
  (0 <= 1 < last_ns sample_state)%Z /\
  (last_ns sample_state < 2 ^ 64)%Z /\
  dt_of 1 (last_ns sample_state) = 18446744073709551615 * 1e-9 /\
  0 < dt_of 1 (last_ns sample_state) /\
  exists s',
    predict always_updatable sample_state sample_acc sample_gyro 1 = Some s' /\
    last_ns s' = 1%Z.
Proof.
  assert (Hord : (0 <= 1 < last_ns sample_state)%Z) by (cbn; lia).
  assert (Hmax : (last_ns sample_state < 2 ^ 64)%Z) by (cbn; lia).
  pose proof (predict_out_of_order_dt always_updatable sample_state sample_acc
                sample_gyro 1 eq_refl Hord Hmax) as H.
  cbv zeta in H. destruct H as (Hdt & Hpos & s' & Hs & Hl & _).
  split; [reflexivity |]. split; [exact Hord |]. split; [exact Hmax |].
  split; [apply dt_of_one_nanosecond_back |]. split; [exact Hpos |].
  exists s'. split; [exact Hs | exact Hl].
Defined.

(** C1, at the zero vector. *)
Lemma exp_zero_norm_identity_witness :
  Vector3f.norm (Vector3f.mk 0 0 0) = Some 0 /\
  exp (Vector3f.mk 0 0 0) = Some (Quaternionf.mk 1 0 0 0).
Proof.
  assert (H0 : Vector3f.norm (Vector3f.mk 0 0 0) = Some 0).
  { rewrite Vector3f_norm_some. unfold Vector3f.squaredNorm. cbn.
    replace (0 * 0 + 0 * 0 + 0 * 0) with 0 by lra. now rewrite sqrt_0. }
  split; [exact H0 | exact (exp_zero_norm_identity (Vector3f.mk 0 0 0) H0)].
Defined.

(** *** Worked examples for the further properties *)

Lemma unit_x_quaternion : Quaternionf.squaredNorm (Quaternionf.mk 0 1 0 0) = 1.
Proof. unfold Quaternionf.squaredNorm. cbn. ring. Qed.

Lemma sample_state_unit : Quaternionf.squaredNorm (qua sample_state) = 1.
Proof. unfold Quaternionf.squaredNorm. cbn. ring. Qed.

Lemma sample_state_symmetric :
  MatrixXf.eq_on 9 9 (P sample_state) (MatrixXf.transpose (P sample_state)) /\
  MatrixXf.eq_on 9 9 (LQL sample_state) (MatrixXf.transpose (LQL sample_state)).
Proof.
  split; intros i j _ _; cbn [P LQL sample_state];
    unfold MatrixXf.transpose, MatrixXf.scalar_mul, MatrixXf.Identity, MatrixXf.Zero;
    [rewrite (Nat.eqb_sym i j) |]; reflexivity.
Qed.

Lemma sample_rest_acc_cancels_gravity :
  Vector3f.of_mul (Quaternionf.toRotationMatrix (qua sample_state)) sample_rest_acc
  = gravity sample_state.
Proof.
  cbv beta iota zeta delta
    [Vector3f.of_mul Quaternionf.toRotationMatrix sample_state sample_rest_acc
     qua gravity Quaternionf.w Quaternionf.x Quaternionf.y Quaternionf.z
     Vector3f.x Vector3f.y Vector3f.z].
  f_equal; ring.
Qed.









(** X2 on the z axis and half a turn: the quaternion (0, 0, 0, 1). *)
Lemma exp_axis_angle_witness :
  Vector3f.squaredNorm (Vector3f.mk 0 0 1) = 1 /\
  exp (Vector3f.mul_scalar (Vector3f.mk 0 0 1) PI) = Some (Quaternionf.mk 0 0 0 1).
Proof.
  assert (Hu : Vector3f.squaredNorm (Vector3f.mk 0 0 1) = 1)
    by (unfold Vector3f.squaredNorm; cbn; ring).
  split; [exact Hu |].
  rewrite (exp_axis_angle (Vector3f.mk 0 0 1) PI Hu).
  rewrite cos_PI2, sin_PI2. cbn. f_equal. f_equal; ring.
Defined.

(** X7 on the half turn about x. *)
Lemma toRotationMatrix_orthogonal_witness :
  Quaternionf.squaredNorm (Quaternionf.mk 0 1 0 0) = 1 /\
  MatrixXf.eq_on 3 3
    (MatrixXf.mul 3 (Quaternionf.toRotationMatrix (Quaternionf.mk 0 1 0 0))
       (MatrixXf.transpose (Quaternionf.toRotationMatrix (Quaternionf.mk 0 1 0 0))))
    MatrixXf.Identity.
Proof.
  split; [exact unit_x_quaternion |].
  exact (toRotationMatrix_orthogonal (Quaternionf.mk 0 1 0 0) unit_x_quaternion).
Defined.

(** X8 on the sample filter. *)
Lemma getState_similarity_witness :
  Quaternionf.squaredNorm (qua sample_state) = 1 /\
  MatrixXf.eq_on 3 3
    (MatrixXf.mul 3 (MatrixXf.block (fst (getState sample_state)) 0 0)
       (MatrixXf.transpose (MatrixXf.block (fst (getState sample_state)) 0 0)))
    (MatrixXf.scalar_mul (scale sample_state * scale sample_state) MatrixXf.Identity).
Proof.
  split; [exact sample_state_unit |].
  exact (getState_similarity sample_state sample_state_unit).
Defined.

(** X9 on the half turn about x. *)
Lemma rotation_matrix_round_trip_witness :
  Quaternionf.squaredNorm (Quaternionf.mk 0 1 0 0) = 1 /\
  exists q',
    Quaternionf.fromRotationMatrix
      (Quaternionf.toRotationMatrix (Quaternionf.mk 0 1 0 0)) = Some q' /\
    (q' = Quaternionf.mk 0 1 0 0 \/ q' = Quaternionf.mk (- 0) (- 1) (- 0) (- 0)).
Proof.
  split; [exact unit_x_quaternion |].
  destruct (rotation_matrix_round_trip (Quaternionf.mk 0 1 0 0) unit_x_quaternion)
    as (q' & Hq' & Hsign & _).
  exists q'. split; [exact Hq' | exact Hsign].
Defined.

(** X11 on the sample filter. *)
Lemma init_getState_round_trip_witness :
  Quaternionf.squaredNorm (qua sample_state) = 1 /\
  scale sample_state = 1 /\
  exists s',
    init sample_state (fst (getState sample_state)) (Vector3f.mk 0 0 0) = Some s' /\
    pos s' = pos sample_state.
Proof.
  split; [exact sample_state_unit |]. split; [reflexivity |].
  destruct (init_getState_round_trip sample_state sample_state (Vector3f.mk 0 0 0)
              sample_state_unit eq_refl) as (s' & Hs' & Hp & _).
  exists s'. split; [exact Hs' | exact Hp].
Defined.

(** X12 on the sample filter. *)
Lemma predict_keeps_symmetry_witness :
  MatrixXf.eq_on 9 9 (P sample_state) (MatrixXf.transpose (P sample_state)) /\
  MatrixXf.eq_on 9 9 (LQL sample_state) (MatrixXf.transpose (LQL sample_state)) /\
  exists s',
    predict always_updatable sample_state sample_acc sample_gyro 1000000002 = Some s' /\
    MatrixXf.eq_on 9 9 (P s') (MatrixXf.transpose (P s')).
Proof.
  destruct sample_state_symmetric as [HP HL].
  split; [exact HP |]. split; [exact HL |].
  exact (predict_keeps_symmetry always_updatable sample_state sample_acc sample_gyro
           1000000002 HP HL).
Defined.

(** X14 on the sample filter, with samples at 5 ns and 9 ns. *)
Lemma predict_orientation_split_witness :
  always_updatable sample_state = true /\
  (0 <= last_ns sample_state <= 5)%Z /\ (5 <= 9 < 2 ^ 64)%Z /\
  exists s1 s2 s2',
    predict always_updatable sample_state sample_acc sample_gyro 5 = Some s1 /\
    predict always_updatable s1 sample_rest_acc sample_gyro 9 = Some s2 /\
    predict always_updatable sample_state sample_acc sample_gyro 9 = Some s2' /\
    qua s2 = qua s2'.
Proof.
  assert (H1 : (0 <= last_ns sample_state <= 5)%Z) by (cbn; lia).
  assert (H2 : (5 <= 9 < 2 ^ 64)%Z) by lia.
  split; [reflexivity |]. split; [exact H1 |]. split; [exact H2 |].
  destruct (predict_orientation_split always_updatable sample_state sample_acc
              sample_rest_acc sample_acc sample_gyro 5 9 eq_refl H1 H2)
    as (s1 & Hs1 & Hnext).
  destruct (Hnext eq_refl) as (s2 & s2' & Hs2 & Hs2' & Hq).
  exists s1, s2, s2'. auto.
Defined.

(** X15 on the sample filter, with two samples. *)
Lemma run_stationary_witness :
  vel sample_state = Vector3f.mk 0 0 0 /\
  exists s',
    run always_updatable sample_getScale rotation_block sample_inverse sample_state
      [ CallPredict sample_rest_acc (Vector3f.mk 0 0 0) 5;
        CallPredict sample_rest_acc (Vector3f.mk 0 0 0) 9 ] = Some s' /\
    pos s' = pos sample_state /\ vel s' = vel sample_state /\
    qua s' = qua sample_state.
Proof.
  split; [reflexivity |].
  apply (run_stationary always_updatable sample_getScale rotation_block
           sample_inverse sample_state); [reflexivity |].
  repeat constructor;
    (eexists; eexists; split; [reflexivity | exact sample_rest_acc_cancels_gravity]).
Defined.

(** ** Correspondence estimation *)

Lemma Vector3f_normalized_total (v : Vector3f.t) :
  exists n, Vector3f.normalized v = Some n.
Proof.
  destruct (Rlt_dec 0 (Vector3f.squaredNorm v)) as [Hpos | Hnull].
  - eexists. apply Vector3f_normalized_pos, Hpos.
  - eexists. apply Vector3f_normalized_null, Hnull.
Qed.

(** What the loop over the neighbours of one search keeps, from any
    starting triple [b]. *)
Lemma best_neighbour_fold (sn : Vector3f.t) (tn : Z -> Vector3f.t)
    (nn : list (Z * R)) :
  forall b : pcl_.Best,
    let r := fold_left (pcl_.keep_better sn tn) nn b in
    fst (fst r) <= fst (fst b) /\
    (forall c, In c nn -> fst (fst r) <= pcl_.cost sn tn c) /\
    (r = b \/
     (In (snd (fst r), snd r) nn /\
      fst (fst r) = pcl_.cost sn tn (snd (fst r), snd r))).
Proof.
  induction nn as [| c nn IH]; intros b; cbn [fold_left].
  - cbv zeta. split; [lra |]. split; [intros c [] | left; reflexivity].
  - cbv zeta.
    set (d := pcl_.cost sn tn c).
    set (b' := pcl_.keep_better sn tn b c).
    pose proof (IH b') as H. cbv zeta in H. destruct H as (Hle & Hall & Hsel).
    assert (Hb' : fst (fst b') <= fst (fst b) /\ fst (fst b') <= d /\
                  (b' = b \/ b' = (d, fst c, snd c))).
    { unfold b', pcl_.keep_better. cbv zeta. fold (pcl_.cost sn tn c). fold d.
      destruct (Rlt_dec d (fst (fst b))) as [L | NL]; cbn [fst].
      - split; [lra |]. split; [lra | auto].
      - split; [lra |]. split; [lra | auto]. }
    destruct Hb' as (Hb1 & Hb2 & Hb3).
    split; [lra |]. split.
    + intros c' [<- | Hin]; [fold d; lra | apply Hall, Hin].
    + destruct Hsel as [E | (Hin & Hcost)]; [rewrite E |].
      * destruct Hb3 as [-> | ->]; [left; reflexivity |].
        right. cbn [fst snd]. split; [left; destruct c; reflexivity |].
        unfold d. destruct c; reflexivity.
      * right. split; [right; exact Hin | exact Hcost].
Qed.

Lemma best_neighbour_spec (sn : Vector3f.t) (tn : Z -> Vector3f.t)
    (nn : list (Z * R)) :
  let r := pcl_.best_neighbour sn tn nn in
  fst (fst r) <= pcl_.FLT_MAX /\
  (forall c, In c nn -> fst (fst r) <= pcl_.cost sn tn c) /\
  (r = (pcl_.FLT_MAX, 0%Z, 0) \/
   (In (snd (fst r), snd r) nn /\
    fst (fst r) = pcl_.cost sn tn (snd (fst r), snd r))).
Proof.
  exact (best_neighbour_fold sn tn nn (pcl_.FLT_MAX, 0%Z, 0)).
Qed.

(** The invariant of the loop over the three searches: [b] is the
    starting triple or the cheapest of the neighbours [seen]. *)
Lemma best_match_step (sn : Vector3f.t) (tn : Z -> Vector3f.t)
    (b0 b : pcl_.Best) (seen nn : list (Z * R)) :
  fst (fst b0) = pcl_.FLT_MAX ->
  (fst (fst b) <= pcl_.FLT_MAX /\
   (forall c, In c seen -> fst (fst b) <= pcl_.cost sn tn c) /\
   (b = b0 \/
    (In (snd (fst b), snd b) seen /\
     fst (fst b) = pcl_.cost sn tn (snd (fst b), snd b)))) ->
  let t := pcl_.best_neighbour sn tn nn in
  let b' := if Rlt_dec (fst (fst t)) (fst (fst b)) then t else b in
  fst (fst b') <= pcl_.FLT_MAX /\
  (forall c, In c (seen ++ nn) -> fst (fst b') <= pcl_.cost sn tn c) /\
  (b' = b0 \/
   (In (snd (fst b'), snd b') (seen ++ nn) /\
    fst (fst b') = pcl_.cost sn tn (snd (fst b'), snd b'))).
Proof.
  intros H0 (Hmax & Hall & Hsel) t b'.
  destruct (best_neighbour_spec sn tn nn) as (Tmax & Tall & Tsel). fold t in Tmax, Tall, Tsel.
  unfold b'. destruct (Rlt_dec (fst (fst t)) (fst (fst b))) as [L | NL].
  - split; [exact Tmax |]. split.
    + intros c Hin. apply in_app_or in Hin as [Hin | Hin].
      * pose proof (Hall c Hin). lra.
      * apply Tall, Hin.
    + destruct Tsel as [E | (Hin & Hcost)].
      * rewrite E in L. cbn [fst] in L. lra.
      * right. split; [apply in_or_app; right; exact Hin | exact Hcost].
  - split; [exact Hmax |]. split.
    + intros c Hin. apply in_app_or in Hin as [Hin | Hin].
      * apply Hall, Hin.
      * pose proof (Tall c Hin). lra.
    + destruct Hsel as [E | (Hin & Hcost)]; [left; exact E |].
      right. split; [apply in_or_app; left; exact Hin | exact Hcost].
Qed.

(** The body of the loop over the source points: it completes, and leaves
    the triple it started from or the cheapest of the candidates. *)
Lemma best_match_spec (e : pcl_.CorrespondenceEstimationBackProjection)
    (sn tn : Z -> Vector3f.t) (min_index : Z) (min_output_dist : R) (idx : Z) :
  exists dfc b,
    Vector3f.normalized (Vector3f.sub (pcl_.input_ e idx) (pcl_.center_ e)) = Some dfc /\
    pcl_.best_match e sn tn min_index min_output_dist idx = Some b /\
    fst (fst b) <= pcl_.FLT_MAX /\
    (forall c, In c (pcl_.candidates e idx dfc) ->
               fst (fst b) <= pcl_.cost (sn idx) tn c) /\
    (b = (pcl_.FLT_MAX, min_index, min_output_dist) \/
     (In (snd (fst b), snd b) (pcl_.candidates e idx dfc) /\
      fst (fst b) = pcl_.cost (sn idx) tn (snd (fst b), snd b))).
Proof.
  destruct (Vector3f_normalized_total (Vector3f.sub (pcl_.input_ e idx) (pcl_.center_ e)))
    as (dfc & Hdfc).
  exists dfc. eexists. split; [exact Hdfc |].
  unfold pcl_.best_match. rewrite Hdfc. cbn [bind fold_left].
  split; [reflexivity |].
  set (b0 := (pcl_.FLT_MAX, min_index, min_output_dist)).
  assert (I0 : fst (fst b0) <= pcl_.FLT_MAX /\
               (forall c, In c [] -> fst (fst b0) <= pcl_.cost (sn idx) tn c) /\
               (b0 = b0 \/
                (In (snd (fst b0), snd b0) [] /\
                 fst (fst b0) = pcl_.cost (sn idx) tn (snd (fst b0), snd b0)))).
  { split; [cbn; lra |]. split; [intros c [] | left; reflexivity]. }
  pose proof (best_match_step (sn idx) tn b0 _ _ (pcl_.neighbours e idx dfc 0)
                eq_refl I0) as I1.
  pose proof (best_match_step (sn idx) tn b0 _ _ (pcl_.neighbours e idx dfc 1)
                eq_refl I1) as I2.
  pose proof (best_match_step (sn idx) tn b0 _ _ (pcl_.neighbours e idx dfc 2)
                eq_refl I2) as I3.
  cbv zeta in I3. unfold pcl_.candidates.
  rewrite app_nil_l, <- app_assoc in I3. exact I3.
Qed.

Lemma subseq_refl_map (A B : Type) (f : A -> B) (l : list A) (l' : list B) :
  map f l = l' -> pcl_.subseq (map f l) l'.
Proof.
  intros <-. induction l as [| a l IH]; cbn [map]; constructor; exact IH.
Qed.

(** The loop over the source points, from any carried match. *)
Lemma correspondences_loop_spec (e : pcl_.CorrespondenceEstimationBackProjection)
    (sn tn : Z -> Vector3f.t) (max_distance : R) (indices : list Z) :
  forall (min_index : Z) (min_output_dist : R),
  exists out,
    pcl_.correspondences_loop e sn tn max_distance min_index min_output_dist indices
      = Some out /\
    pcl_.subseq (map pcl_.index_query out) indices /\
    (pcl_.FLT_MAX <= max_distance -> map pcl_.index_query out = indices) /\
    Forall
      (fun c =>
         max_distance < pcl_.FLT_MAX ->
         exists dfc,
           Vector3f.normalized
             (Vector3f.sub (pcl_.input_ e (pcl_.index_query c)) (pcl_.center_ e))
             = Some dfc /\
           In (pcl_.index_match c, pcl_.distance c)
              (pcl_.candidates e (pcl_.index_query c) dfc) /\
           pcl_.cost (sn (pcl_.index_query c)) tn (pcl_.index_match c, pcl_.distance c)
             <= max_distance /\
           forall c', In c' (pcl_.candidates e (pcl_.index_query c) dfc) ->
             pcl_.cost (sn (pcl_.index_query c)) tn (pcl_.index_match c, pcl_.distance c)
             <= pcl_.cost (sn (pcl_.index_query c)) tn c')
      out.
Proof.
  induction indices as [| idx rest IH]; intros min_index min_output_dist.
  - exists []. cbn. repeat split; constructor.
  - cbn [pcl_.correspondences_loop].
    destruct (best_match_spec e sn tn min_index min_output_dist idx)
      as (dfc & b & Hdfc & Hb & Hmax & Hall & Hsel).
    rewrite Hb. cbn [bind].
    destruct (IH (snd (fst b)) (snd b)) as (others & Hloop & Hsub & Hfull & Hout).
    rewrite Hloop. cbn [bind].
    destruct (Rgt_dec (fst (fst b)) max_distance) as [Hfar | Hnear].
    + exists others. split; [reflexivity |].
      split; [constructor; exact Hsub |].
      split; [intros Hle; unfold Rgt in Hfar; lra | exact Hout].
    + exists (pcl_.mkCorrespondence idx (snd (fst b)) (snd b) :: others).
      split; [reflexivity |]. cbn [map pcl_.index_query].
      split; [constructor; exact Hsub |].
      split; [intros Hle; f_equal; apply Hfull, Hle |].
      constructor; [| exact Hout].
      cbn [pcl_.index_query pcl_.index_match pcl_.distance]. intros Hlt.
      exists dfc. split; [exact Hdfc |].
      destruct Hsel as [E | (Hin & Hcost)].
      * rewrite E in Hnear. cbn [fst] in Hnear. unfold Rgt in Hnear. lra.
      * split; [exact Hin |]. rewrite <- Hcost.
        split; [unfold Rgt in Hnear; lra | exact Hall].
Qed.

(** X19. Without the normals of the source or of the target, or when the
    base class fails to initialize, [determineCorrespondences] returns
    before it resizes anything: the correspondences are left as they
    were. *)
Theorem determineCorrespondences_not_initialized
    (e : pcl_.CorrespondenceEstimationBackProjection)
    (correspondences : list pcl_.Correspondence) (max_distance : R) :
  pcl_.source_normals_ e = None \/ pcl_.target_normals_ e = None \/
  pcl_.base_initCompute e = false ->
  pcl_.initCompute e = false /\
  pcl_.determineCorrespondences e correspondences max_distance = Some correspondences.
Proof.
  intros H.
  assert (Hinit : pcl_.initCompute e = false).
  { unfold pcl_.initCompute.
    destruct (pcl_.source_normals_ e), (pcl_.target_normals_ e);
      destruct H as [H | [H | H]]; congruence. }
  split; [exact Hinit |].
  unfold pcl_.determineCorrespondences. rewrite Hinit. reflexivity.
Qed.

(** X20. Once initialized, [determineCorrespondences] drops what the
    vector held and returns at most one correspondence per source index,
    in the order of the indices: the query indices of the result are the
    source indices with some left out. *)
Theorem determineCorrespondences_subsequence
    (e : pcl_.CorrespondenceEstimationBackProjection)
    (correspondences : list pcl_.Correspondence) (max_distance : R) :
  pcl_.initCompute e = true ->
  exists out,
    pcl_.determineCorrespondences e correspondences max_distance = Some out /\
    pcl_.subseq (map pcl_.index_query out) (pcl_.indices_ e) /\
    (length out <= length (pcl_.indices_ e))%nat.
Proof.
  intros Hinit. unfold pcl_.determineCorrespondences. rewrite Hinit. cbn [negb].
  unfold pcl_.initCompute in Hinit.
  destruct (pcl_.source_normals_ e) as [sn |]; [| discriminate].
  destruct (pcl_.target_normals_ e) as [tn |]; [| discriminate].
  destruct (correspondences_loop_spec e sn tn max_distance (pcl_.indices_ e) 0%Z 0)
    as (out & Hloop & Hsub & _).
  exists out. split; [exact Hloop |]. split; [exact Hsub |].
  rewrite <- (length_map pcl_.index_query out).
  clear Hloop. induction Hsub; cbn [length]; lia.
Qed.

(** X21. With a threshold below [FLT_MAX], every correspondence returned
    pairs its source point with one of the neighbours found by the three
    searches around that point, the one of least weighted distance
    [d * (2 - cos^2)]; that weighted distance is within the threshold,
    while the distance reported is the raw [d] of the neighbour. *)
Theorem determineCorrespondences_best_match
    (e : pcl_.CorrespondenceEstimationBackProjection)
    (sn tn : Z -> Vector3f.t)
    (correspondences : list pcl_.Correspondence) (max_distance : R) :
  pcl_.source_normals_ e = Some sn -> pcl_.target_normals_ e = Some tn ->
  pcl_.base_initCompute e = true ->
  max_distance < pcl_.FLT_MAX ->
  exists out,
    pcl_.determineCorrespondences e correspondences max_distance = Some out /\
    Forall
      (fun c =>
         exists dfc,
           Vector3f.normalized
             (Vector3f.sub (pcl_.input_ e (pcl_.index_query c)) (pcl_.center_ e))
             = Some dfc /\
           In (pcl_.index_match c, pcl_.distance c)
              (pcl_.candidates e (pcl_.index_query c) dfc) /\
           pcl_.distance c
             * (2 - pcl_.cos_angle (sn (pcl_.index_query c)) (tn (pcl_.index_match c))
                    * pcl_.cos_angle (sn (pcl_.index_query c)) (tn (pcl_.index_match c)))
             <= max_distance /\
           forall c', In c' (pcl_.candidates e (pcl_.index_query c) dfc) ->
             pcl_.cost (sn (pcl_.index_query c)) tn (pcl_.index_match c, pcl_.distance c)
             <= pcl_.cost (sn (pcl_.index_query c)) tn c')
      out.
Proof.
  intros Hsn Htn Hbase Hlt.
  unfold pcl_.determineCorrespondences, pcl_.initCompute. rewrite Hsn, Htn, Hbase.
  cbn [negb].
  destruct (correspondences_loop_spec e sn tn max_distance (pcl_.indices_ e) 0%Z 0)
    as (out & Hloop & _ & _ & Hout).
  exists out. split; [exact Hloop |].
  revert Hout. apply Forall_impl. intros c Hc. exact (Hc Hlt).
Qed.

(** X22. With a threshold of [FLT_MAX] or more, such as the default of
    PCL, no source point is dropped: the result has one correspondence
    per source index, in order, neighbours found or not. *)
Theorem determineCorrespondences_no_threshold
    (e : pcl_.CorrespondenceEstimationBackProjection)
    (correspondences : list pcl_.Correspondence) (max_distance : R) :
  pcl_.initCompute e = true -> pcl_.FLT_MAX <= max_distance ->
  exists out,
    pcl_.determineCorrespondences e correspondences max_distance = Some out /\
    map pcl_.index_query out = pcl_.indices_ e.
Proof.
  intros Hinit Hle. unfold pcl_.determineCorrespondences. rewrite Hinit. cbn [negb].
  unfold pcl_.initCompute in Hinit.
  destruct (pcl_.source_normals_ e) as [sn |]; [| discriminate].
  destruct (pcl_.target_normals_ e) as [tn |]; [| discriminate].
  destruct (correspondences_loop_spec e sn tn max_distance (pcl_.indices_ e) 0%Z 0)
    as (out & Hloop & _ & Hfull & _).
  exists out. split; [exact Hloop | exact (Hfull Hle)].
Qed.

Lemma keep_better_closer (sn : Vector3f.t) (tn : Z -> Vector3f.t)
    (b : pcl_.Best) (c : Z * R) :
  pcl_.cost sn tn c < fst (fst b) ->
  pcl_.keep_better sn tn b c = (pcl_.cost sn tn c, fst c, snd c).
Proof.
  intros H. unfold pcl_.keep_better. cbv zeta. fold (pcl_.cost sn tn c).
  destruct (Rlt_dec (pcl_.cost sn tn c) (fst (fst b))); [reflexivity | contradiction].
Qed.

(** The sample cloud: the neighbour 8, at squared distance 2, beats the
    neighbour 7, at squared distance 3, in each of the three searches. *)
Lemma determineCorrespondences_sample :
  pcl_.determineCorrespondences pcl_.sample_estimation [] 10
  = Some [ pcl_.mkCorrespondence 4 8 2 ].
Proof.
  set (n := Vector3f.mk 0 0 1).
  assert (H7 : pcl_.cost n (fun _ => n) (7%Z, 3) = 3)
    by (unfold pcl_.cost, pcl_.dist, pcl_.cos_angle, n; cbn; ring).
  assert (H8 : pcl_.cost n (fun _ => n) (8%Z, 2) = 2)
    by (unfold pcl_.cost, pcl_.dist, pcl_.cos_angle, n; cbn; ring).
  assert (Hbest : pcl_.best_neighbour n (fun _ => n) [ (7%Z, 3); (8%Z, 2) ]
                  = (2, 8%Z, 2)).
  { unfold pcl_.best_neighbour. cbn [fold_left].
    rewrite (keep_better_closer n (fun _ => n) (pcl_.FLT_MAX, 0%Z, 0) (7%Z, 3))
      by (rewrite H7; unfold pcl_.FLT_MAX; cbn; lra).
    rewrite keep_better_closer by (rewrite H7, H8; cbn; lra).
    rewrite H8. reflexivity. }
  unfold pcl_.determineCorrespondences, pcl_.initCompute, pcl_.sample_estimation.
  cbn [pcl_.source_normals_ pcl_.target_normals_ pcl_.base_initCompute negb
       pcl_.indices_ pcl_.correspondences_loop].
  unfold pcl_.best_match.
  match goal with
  | |- context [Vector3f.normalized ?v] =>
      destruct (Vector3f_normalized_total v) as (dfc & ->)
  end.
  cbn [bind fold_left]. unfold pcl_.neighbours. cbn [pcl_.nearestKSearch].
  fold n. rewrite Hbest. unfold pcl_.FLT_MAX.
  repeat
    (cbn [fst snd];
     match goal with
     | |- context [Rlt_dec ?a ?b] => destruct (Rlt_dec a b) as [? | ?]; try lra
     end).
  all: cbn [fst snd];
    destruct (Rgt_dec 2 10) as [Hfar | _]; [unfold Rgt in Hfar; lra | reflexivity].
Qed.

Lemma best_match_no_neighbours (e : pcl_.CorrespondenceEstimationBackProjection)
    (sn tn : Z -> Vector3f.t) (min_index : Z) (min_output_dist : R) (idx : Z) :
  (forall q k, pcl_.nearestKSearch e q k = []) ->
  pcl_.best_match e sn tn min_index min_output_dist idx
  = Some (pcl_.FLT_MAX, min_index, min_output_dist).
Proof.
  intros Hempty. unfold pcl_.best_match.
  destruct (Vector3f_normalized_total (Vector3f.sub (pcl_.input_ e idx) (pcl_.center_ e)))
    as (dfc & ->).
  cbn [bind fold_left]. unfold pcl_.neighbours. rewrite !Hempty.
  unfold pcl_.best_neighbour. cbn [fold_left].
  repeat (cbn [fst];
          destruct (Rlt_dec pcl_.FLT_MAX pcl_.FLT_MAX) as [L | _]; [lra |]).
  reflexivity.
Qed.

Lemma correspondences_loop_no_neighbours
    (e : pcl_.CorrespondenceEstimationBackProjection)
    (sn tn : Z -> Vector3f.t) (max_distance : R) (min_index : Z)
    (min_output_dist : R) (indices : list Z) :
  (forall q k, pcl_.nearestKSearch e q k = []) ->
  pcl_.correspondences_loop e sn tn max_distance min_index min_output_dist indices
  = Some (if Rgt_dec pcl_.FLT_MAX max_distance then []
          else map (fun idx => pcl_.mkCorrespondence idx min_index min_output_dist)
                   indices).
Proof.
  intros Hempty. induction indices as [| idx rest IH]; cbn [pcl_.correspondences_loop].
  - destruct (Rgt_dec pcl_.FLT_MAX max_distance); reflexivity.
  - rewrite best_match_no_neighbours by exact Hempty. cbn [bind fst snd].
    rewrite IH. cbn [bind].
    destruct (Rgt_dec pcl_.FLT_MAX max_distance); reflexivity.
Qed.

(** X23. When the searches find no neighbour at all, a threshold below
    [FLT_MAX] gives no correspondence, while a threshold of [FLT_MAX] or
    more gives one correspondence per source index, each with the match
    index 0 and the distance 0 the locals were initialized with. *)
Theorem determineCorrespondences_no_neighbours
    (e : pcl_.CorrespondenceEstimationBackProjection)
    (correspondences : list pcl_.Correspondence) (max_distance : R) :
  pcl_.initCompute e = true ->
  (forall q k, pcl_.nearestKSearch e q k = []) ->
  exists out,
    pcl_.determineCorrespondences e correspondences max_distance = Some out /\
    (max_distance < pcl_.FLT_MAX -> out = []) /\
    (pcl_.FLT_MAX <= max_distance ->
     out = map (fun idx => pcl_.mkCorrespondence idx 0 0) (pcl_.indices_ e)).
Proof.
  intros Hinit Hempty. unfold pcl_.determineCorrespondences. rewrite Hinit. cbn [negb].
  unfold pcl_.initCompute in Hinit.
  destruct (pcl_.source_normals_ e) as [sn |]; [| discriminate].
  destruct (pcl_.target_normals_ e) as [tn |]; [| discriminate].
  rewrite correspondences_loop_no_neighbours by exact Hempty.
  eexists. split; [reflexivity |].
  destruct (Rgt_dec pcl_.FLT_MAX max_distance) as [Hgt | Hle]; unfold Rgt in *;
    split; intros H; try reflexivity; lra.
Qed.

(** X23 on an empty target cloud. *)
Lemma determineCorrespondences_no_neighbours_witness :
  pcl_.initCompute pcl_.sample_estimation_empty = true /\
  (forall q k, pcl_.nearestKSearch pcl_.sample_estimation_empty q k = []) /\
  pcl_.determineCorrespondences pcl_.sample_estimation_empty [] pcl_.FLT_MAX
  = Some [ pcl_.mkCorrespondence 4 0 0; pcl_.mkCorrespondence 5 0 0 ].
Proof.
  assert (Hempty : forall q k, pcl_.nearestKSearch pcl_.sample_estimation_empty q k = [])
    by reflexivity.
  split; [reflexivity |]. split; [exact Hempty |].
  destruct (determineCorrespondences_no_neighbours pcl_.sample_estimation_empty []
              pcl_.FLT_MAX eq_refl Hempty) as (out & Hout & _ & Hfull).
  rewrite Hout. f_equal. apply Hfull. lra.
Defined.

(** X19 on the sample cloud without source normals. *)
Lemma determineCorrespondences_not_initialized_witness :
  (pcl_.source_normals_ pcl_.sample_estimation_no_normals = None \/
   pcl_.target_normals_ pcl_.sample_estimation_no_normals = None \/
   pcl_.base_initCompute pcl_.sample_estimation_no_normals = false) /\
  pcl_.determineCorrespondences pcl_.sample_estimation_no_normals
    [ pcl_.mkCorrespondence 1 2 3 ] 10 = Some [ pcl_.mkCorrespondence 1 2 3 ].
Proof.
  assert (H : pcl_.source_normals_ pcl_.sample_estimation_no_normals = None \/
              pcl_.target_normals_ pcl_.sample_estimation_no_normals = None \/
              pcl_.base_initCompute pcl_.sample_estimation_no_normals = false)
    by (left; reflexivity).
  split; [exact H |].
  exact (proj2 (determineCorrespondences_not_initialized
                  pcl_.sample_estimation_no_normals [ pcl_.mkCorrespondence 1 2 3 ] 10 H)).
Defined.

(** X20 on the sample cloud. *)
Lemma determineCorrespondences_subsequence_witness :
  pcl_.initCompute pcl_.sample_estimation = true /\
  exists out,
    pcl_.determineCorrespondences pcl_.sample_estimation [] 10 = Some out /\
    pcl_.subseq (map pcl_.index_query out) [ 4%Z ] /\ (length out <= 1)%nat.
Proof.
  split; [reflexivity |].
  exact (determineCorrespondences_subsequence pcl_.sample_estimation [] 10 eq_refl).
Defined.

(** X21 on the sample cloud. *)
Lemma determineCorrespondences_best_match_witness :
  pcl_.source_normals_ pcl_.sample_estimation = Some (fun _ => Vector3f.mk 0 0 1) /\
  pcl_.target_normals_ pcl_.sample_estimation = Some (fun _ => Vector3f.mk 0 0 1) /\
  pcl_.base_initCompute pcl_.sample_estimation = true /\
  10 < pcl_.FLT_MAX /\
  exists out,
    pcl_.determineCorrespondences pcl_.sample_estimation [] 10 = Some out /\
    Forall (fun c => pcl_.distance c * (2 - 1 * 1) <= 10) out.
Proof.
  assert (Hlt : 10 < pcl_.FLT_MAX) by (unfold pcl_.FLT_MAX; lra).
  split; [reflexivity |]. split; [reflexivity |]. split; [reflexivity |].
  split; [exact Hlt |].
  destruct (determineCorrespondences_best_match pcl_.sample_estimation
              (fun _ => Vector3f.mk 0 0 1) (fun _ => Vector3f.mk 0 0 1) [] 10
              eq_refl eq_refl eq_refl Hlt) as (out & Hout & Hall).
  exists out. split; [exact Hout |].
  revert Hall. apply Forall_impl. intros c (dfc & _ & _ & Hmax & _).
  unfold pcl_.cos_angle in Hmax. cbn in Hmax. lra.
Defined.

(** X22 on the sample cloud. *)
Lemma determineCorrespondences_no_threshold_witness :
  pcl_.initCompute pcl_.sample_estimation = true /\
  pcl_.FLT_MAX <= pcl_.FLT_MAX /\
  exists out,
    pcl_.determineCorrespondences pcl_.sample_estimation [] pcl_.FLT_MAX = Some out /\
    map pcl_.index_query out = [ 4%Z ].
Proof.
  assert (Hle : pcl_.FLT_MAX <= pcl_.FLT_MAX) by lra.
  split; [reflexivity |]. split; [exact Hle |].
  exact (determineCorrespondences_no_threshold pcl_.sample_estimation [] pcl_.FLT_MAX
           eq_refl Hle).
Defined.

End vllm.
